(** * Fantasy snake draft simulator: parser, assigner, board display, picked set

    A shallow embedding of [src/App.tsx] ([parsePlayerText],
    [generateSnakeDraft], [handleTogglePlayerPicked]) and of the pick
    numbering of [src/components/DraftBoard.tsx].

    Conventions of the embedding.
    - A JavaScript string is the list of its UTF-16 code units ([jsstring]).
    - A JavaScript number that the program uses as a count or an index is an
      integer of [Z]: counts and indices stay below 2^33, where doubles are
      exact and the quotients the code takes round to the same floor and
      ceiling.  A rank is whatever double [parseInt] returns, a [number]:
      [NaN], an integer with a significand of 53 bits, or an infinity.
    - Arrays are lists; an array holds fewer than 2^32 elements, and
      [new Array(n)] throws a [RangeError] for a larger [n].  An object used
      as a dictionary is an association list in insertion order, which is
      the order [Object.keys] reports for keys such as [Team 1].
    - Reading a property of [undefined] throws a [TypeError] and an array
      too long a [RangeError]; the functions that could do so return an
      [option], [None] standing for the throw. *)

From stdpp Require Import base option list list_numbers strings gmap.
From Stdlib Require Import ZArith Lia.

Local Open Scope Z_scope.

(** ** Strings *)

Definition char := N.
Definition jsstring := list char.

(** The code units of an ASCII literal. *)
Definition js (s : string) : jsstring :=
  map Ascii.N_of_ascii (String.list_ascii_of_string s).

(** ** Numbers *)

(** The doubles [parseInt] can return: [NaN], an integer (the two zeros are
    one value here, as they are for [isNaN], [Set] and [String]), or an
    infinity with its sign. *)
Inductive number :=
  | NaN
  | Num (z : Z)
  | Infinity (negative : bool).

Definition isNaN (x : number) : bool :=
  match x with NaN => true | _ => false end.

(** The integers a double holds have a significand of 53 bits.
    [float_round m] is the one nearest to [m], for [m >= 0], a tie going to
    the even significand. *)
Definition float_round (m : Z) : Z :=
  let e := Z.log2 m - 52 in
  if e <=? 0 then m
  else
    let q := m / 2 ^ e in
    let r := m mod 2 ^ e in
    let half := 2 ^ (e - 1) in
    if (half <? r) || ((r =? half) && Z.odd q)
    then (q + 1) * 2 ^ e
    else q * 2 ^ e.

(** The double nearest to [m], or to [- m], for [m >= 0]: from 2^1024 on the
    rounded value is an infinity. *)
Definition to_number (negative : bool) (m : Z) : number :=
  let v := float_round m in
  if 2 ^ 1024 <=? v then Infinity negative
  else Num (if negative then - v else v).

(** Decimal digits of a natural number, least significant first.  The fuel
    is the binary size of the number, which bounds the count of its decimal
    digits. *)
Fixpoint digits_le (fuel : nat) (n : Z) : jsstring :=
  match fuel with
  | O => []
  | S fuel' =>
      if n <=? 0 then []
      else (48 + Z.to_N (n mod 10))%N :: digits_le fuel' (n / 10)
  end.

Definition decimal (n : Z) : jsstring :=
  if n <=? 0 then js "0"
  else rev (digits_le (S (Z.to_nat (Z.log2 n))) n).

(** [String(z)] for an integer below 2^53 in magnitude, as the team
    numbers are: an optional minus sign and the decimal digits. *)
Definition int_to_string (z : Z) : jsstring :=
  if z <? 0 then js "-" ++ decimal (- z) else decimal z.

(** ** Data model (src/types.ts) *)

Record Player := mkPlayer {
  rank : number;
  name : jsstring;
  position : jsstring
}.

(** What an array element of type [Player | null] can be at run time:
    a player, [null], or [undefined] when the index was never written. *)
Inductive cell :=
  | CPlayer (p : Player)
  | CNull
  | CUndefined.

Definition DraftBoardData := list (jsstring * list cell).

(** ** String primitives used by the parser *)

(** The code units [String.prototype.trim], the regular expression class
    [\s] and the whitespace skipping of [parseInt] agree on: the WhiteSpace
    and LineTerminator productions of ECMAScript. *)
Definition is_ws (c : char) : bool :=
  bool_decide (c ∈ [9; 10; 11; 12; 13; 32; 160; 5760; 8232; 8233; 8239; 8287;
                    12288; 65279]%N)
  || ((8192 <=? c) && (c <=? 8202))%N.

Fixpoint drop_ws (s : jsstring) : jsstring :=
  match s with
  | c :: s' => if is_ws c then drop_ws s' else s
  | [] => []
  end.

(** [s.trim()] *)
Definition trim (s : jsstring) : jsstring := rev (drop_ws (rev (drop_ws s))).

(** [!s] for a string: only the empty string is falsy. *)
Definition falsy (s : jsstring) : bool :=
  match s with [] => true | _ => false end.

(** Prefix a code unit to the first piece of a split. *)
Definition cons_head (c : char) (pieces : list jsstring) : list jsstring :=
  match pieces with
  | piece :: pieces' => (c :: piece) :: pieces'
  | [] => [[c]]
  end.

Definition newline : char := 10%N.

(** [s.split('\n')]: the pieces between line feeds; the empty string gives
    one empty piece. *)
Fixpoint split_nl (s : jsstring) : list jsstring :=
  match s with
  | [] => [[]]
  | c :: s' =>
      if decide (c = newline) then [] :: split_nl s'
      else cons_head c (split_nl s')
  end.

Definition starts_ws (s : jsstring) : bool :=
  match s with c :: _ => is_ws c | [] => false end.

(** [s.split(/\s+/)]: the pieces between maximal runs of whitespace; a run
    at either end of [s] leaves an empty piece there. *)
Fixpoint split_ws (s : jsstring) : list jsstring :=
  match s with
  | [] => [[]]
  | c :: s' =>
      if is_ws c then
        if starts_ws s' then split_ws s' else [] :: split_ws s'
      else cons_head c (split_ws s')
  end.

(** [parts.join(sep)] *)
Fixpoint join (sep : jsstring) (parts : list jsstring) : jsstring :=
  match parts with
  | [] => []
  | [part] => part
  | part :: parts' => part ++ sep ++ join sep parts'
  end.

Definition is_digit (c : char) : bool := ((48 <=? c) && (c <=? 57))%N.

Fixpoint take_digits (s : jsstring) : jsstring :=
  match s with
  | c :: s' => if is_digit c then c :: take_digits s' else []
  | [] => []
  end.

Definition digits_value (ds : jsstring) : Z :=
  foldl (λ acc c, acc * 10 + (Z.of_N c - 48)) 0 ds.

Definition minus_sign : char := 45%N.
Definition plus_sign : char := 43%N.

(** [parseInt(s, 10)]: leading whitespace is skipped, then an optional sign
    and the longest run of decimal digits are read; whatever follows is
    ignored, and no digit at all gives [NaN].  The result is the double
    nearest to the integer the digits denote. *)
Definition parseInt (s : jsstring) : number :=
  let s := drop_ws s in
  let '(negative, s) :=
    match s with
    | c :: s' =>
        if decide (c = minus_sign) then (true, s')
        else if decide (c = plus_sign) then (false, s')
        else (false, s)
    | [] => (false, s)
    end in
  match take_digits s with
  | [] => NaN
  | ds => to_number negative (digits_value ds)
  end.

(** ** parsePlayerText (src/App.tsx) *)

Record ParseResult := mkResult {
  players : list Player;
  error : option jsstring
}.

Definition quote : jsstring := [34%N].

Definition malformed_msg (line : jsstring) : jsstring :=
  js "Malformed line detected. Each line must have rank, name, and position. Problem line: "
  ++ quote ++ line ++ quote.

Definition could_not_parse_msg (line : jsstring) : jsstring :=
  js "Could not parse line. Check format. Problem line: "
  ++ quote ++ line ++ quote.

(** What one turn of the loop over the lines does. *)
Inductive step :=
  | Continue
  | Return (r : ParseResult)
  | Push (p : Player).

(** The test [isNaN(rank) || !name || !position]. *)
Definition invalid_fields (rank : number) (name position : jsstring) : bool :=
  isNaN rank || falsy name || falsy position.

(** The second check and the push. *)
Definition check_fields (line : jsstring) (rank : number)
    (name position : jsstring) : step :=
  if invalid_fields rank name position
  then Return (mkResult [] (Some (could_not_parse_msg line)))
  else Push (mkPlayer rank name position).

(** [parts.slice(1, -1)] *)
Definition slice_middle (parts : list jsstring) : list jsstring :=
  drop 1 (take (length parts - 1) parts).

(** The body of the loop.  [parts[0]] and the last element exist whenever
    they are read, the array having three elements or more by then; the
    defaults stand for [undefined], which [parseInt] maps to [NaN] and [!]
    to true, as they do the empty string. *)
Definition parse_line (line : jsstring) : step :=
  if falsy (trim line) then Continue
  else
    let parts := split_ws (trim line) in
    if (length parts <? 3)%nat
    then Return (mkResult [] (Some (malformed_msg line)))
    else
      let rank := parseInt (default [] (parts !! 0%nat)) in
      let position := default [] (last parts) in
      let name := join (js " ") (slice_middle parts) in
      check_fields line rank name position.

Fixpoint parse_lines (lines : list jsstring) (players : list Player)
  : ParseResult :=
  match lines with
  | [] => mkResult players None
  | line :: lines' =>
      match parse_line line with
      | Continue => parse_lines lines' players
      | Return r => r
      | Push p => parse_lines lines' (players ++ [p])
      end
  end.

Definition parsePlayerText (text : jsstring) : ParseResult :=
  parse_lines (split_nl (trim text)) [].

(** ** Arrays and objects *)

(** [a[i]]: [None] is [undefined]. *)
Definition array_get {A} (a : list A) (i : Z) : option A :=
  if i <? 0 then None else a !! Z.to_nat i.

(** [row[i] = c].  Inside the array the element is replaced; past its end the
    array grows and the skipped indices read as [undefined]; a negative [i]
    is an ordinary property and leaves the elements alone. *)
Definition row_set (row : list cell) (i : Z) (c : cell) : list cell :=
  if i <? 0 then row
  else if i <? Z.of_nat (length row) then <[Z.to_nat i := c]> row
  else row ++ replicate (Z.to_nat i - length row) CUndefined ++ [c].

(** [o[k]] *)
Fixpoint obj_get {V} (o : list (jsstring * V)) (k : jsstring) : option V :=
  match o with
  | [] => None
  | (k', v) :: o' => if decide (k' = k) then Some v else obj_get o' k
  end.

(** [o[k] = v]: an existing key keeps its place, a new key goes last. *)
Fixpoint obj_set {V} (o : list (jsstring * V)) (k : jsstring) (v : V)
  : list (jsstring * V) :=
  match o with
  | [] => [(k, v)]
  | (k', v') :: o' =>
      if decide (k' = k) then (k, v) :: o' else (k', v') :: obj_set o' k v
  end.

(** [Object.keys(o)] *)
Definition obj_keys {V} (o : list (jsstring * V)) : list jsstring := o.*1.

(** ** Loops *)

(** [for (let i = 0; i < n; i++) body], the body possibly throwing. *)
Fixpoint for_each {S} (body : Z → S → option S) (idx : list Z) (s : S)
  : option S :=
  match idx with
  | [] => Some s
  | i :: idx' => s' ← body i s; for_each body idx' s'
  end.

Definition for_loop {S} (n : Z) (body : Z → S → option S) (s : S) : option S :=
  for_each body (seqZ 0 n) s.

(** [a.forEach((x, index) => ...)] over a state. *)
Fixpoint forEach_from {A S} (f : A → Z → S → S) (a : list A) (index : Z)
    (s : S) : S :=
  match a with
  | [] => s
  | x :: a' => forEach_from f a' (index + 1) (f x index s)
  end.

Definition forEach {A S} (f : A → Z → S → S) (a : list A) (s : S) : S :=
  forEach_from f a 0 s.

(** ** generateSnakeDraft (src/App.tsx) *)

(** [Math.ceil(a / b)] for a positive divisor. *)
Definition ceil_div (a b : Z) : Z := - ((- a) / b).

Definition teamKey (t : Z) : jsstring := js "Team " ++ int_to_string (t + 1).

(** The body of [players.forEach]. *)
Definition place (numTeams : Z) (player : Player) (index : Z)
    (rounds : list (list cell)) : list (list cell) :=
  let round := index / numTeams in
  let pickInRound := Z.rem index numTeams in
  let isForwardRound := Z.rem round 2 =? 0 in
  let teamIndex :=
    if isForwardRound then pickInRound else numTeams - 1 - pickInRound in
  match array_get rounds round with
  | Some row =>
      if teamIndex <? numTeams
      then <[Z.to_nat round := row_set row teamIndex (CPlayer player)]> rounds
      else rounds
  | None => rounds
  end.

(** [rounds[r][t]]; [rounds[r]] being [undefined] throws. *)
Definition read_cell (rounds : list (list cell)) (r t : Z) : option cell :=
  row ← array_get rounds r;
  Some (default CUndefined (array_get row t)).

(** [board[teamKey].push(c)] *)
Definition board_push (board : DraftBoardData) (k : jsstring) (c : cell)
  : option DraftBoardData :=
  col ← obj_get board k;
  Some (obj_set board k (col ++ [c])).

(** The largest length of an array, 2^32 - 1. *)
Definition max_array_length : Z := 4294967295.

(** [new Array(len).fill(c)] for an integer [len]: a length that is
    negative or above 2^32 - 1 throws a [RangeError]. *)
Definition new_array (len : Z) (c : cell) : option (list cell) :=
  if (0 <=? len) && (len <=? max_array_length)
  then Some (replicate (Z.to_nat len) c)
  else None.

Definition generateSnakeDraft (players : list Player) (numTeams : Z)
  : option DraftBoardData :=
  if (length players =? 0)%nat || (numTeams <=? 0) then Some []
  else
    let numPicks := Z.of_nat (length players) in
    let numRounds := ceil_div numPicks numTeams in
    rounds ← for_loop numRounds
      (λ _ rounds, row ← new_array numTeams CNull; Some (rounds ++ [row])) [];
    let rounds := forEach (place numTeams) players rounds in
    for_loop numTeams
      (λ t board,
         let board := obj_set board (teamKey t) [] in
         for_loop numRounds
           (λ r board, c ← read_cell rounds r t; board_push board (teamKey t) c)
           board)
      [].


(** ** The picked set (src/App.tsx) *)

Global Instance number_eq_dec : EqDecision number.
Proof. solve_decision. Defined.

Global Instance number_countable : Countable number.
Proof.
  refine (inj_countable'
            (λ x, match x with
                  | NaN => None
                  | Num z => Some (inl z)
                  | Infinity b => Some (inr b)
                  end)
            (λ o, match o with
                  | None => NaN
                  | Some (inl z) => Num z
                  | Some (inr b) => Infinity b
                  end) _).
  by intros [].
Defined.

(** The updater that [handleTogglePlayerPicked] hands to [setPickedPlayers].
    [Set] compares with SameValueZero, under which [NaN] equals itself. *)
Definition handleTogglePlayerPicked (playerRank : number)
    (prevPicked : gset number) : gset number :=
  let newPicked := prevPicked in
  if bool_decide (playerRank ∈ newPicked)
  then newPicked ∖ {[playerRank]}
  else newPicked ∪ {[playerRank]}.

(** ** DraftBoard (src/components/DraftBoard.tsx) *)

Inductive card :=
  | PlayerCard (player : Player) (overallPick : Z) (round : Z) (isPicked : bool)
  | EmptyCard (round : Z).

(** [boardData[teamName]?.[roundIndex] ?? null], then the test [player ?]. *)
Definition board_player (boardData : DraftBoardData) (teamName : jsstring)
    (roundIndex : Z) : option Player :=
  match obj_get boardData teamName ≫= (λ col, array_get col roundIndex) with
  | Some (CPlayer p) => Some p
  | _ => None
  end.

Definition overallPick (numTeams roundIndex teamIndex : Z) : Z :=
  let isForwardRound := Z.rem roundIndex 2 =? 0 in
  let pickInRound :=
    if isForwardRound then teamIndex else numTeams - 1 - teamIndex in
  roundIndex * numTeams + pickInRound + 1.

(** One cell of the grid. *)
Definition render_card (boardData : DraftBoardData) (numTeams : Z)
    (pickedPlayers : gset number) (roundIndex : Z) (teamName : jsstring)
    (teamIndex : Z) : card :=
  match board_player boardData teamName roundIndex with
  | Some player =>
      PlayerCard player (overallPick numTeams roundIndex teamIndex) roundIndex
        (bool_decide (rank player ∈ pickedPlayers))
  | None => EmptyCard roundIndex
  end.

(** The grid of cards, a row per round, in the order the component emits
    them; the header row and the markup are left out.  An empty board gives
    the placeholder, here no row at all. *)
Definition DraftBoard (boardData : DraftBoardData) (numTeams : Z)
    (pickedPlayers : gset number) : list (list card) :=
  let teamKeys := obj_keys boardData in
  match teamKeys with
  | [] => []
  | teamKey0 :: _ =>
      let numRounds :=
        match obj_get boardData teamKey0 with
        | Some col => Z.of_nat (length col)
        | None => 0
        end in
      (λ roundIndex,
         imap (λ teamIndex teamName,
                 render_card boardData numTeams pickedPlayers roundIndex
                   teamName (Z.of_nat teamIndex))
           teamKeys) <$> seqZ 0 numRounds
  end.

(** The pick numbers of the player cards, in the order of the grid. *)
Definition card_pick (c : card) : option Z :=
  match c with
  | PlayerCard _ pick _ _ => Some pick
  | EmptyCard _ => None
  end.

Definition shown_picks (rows : list (list card)) : list Z :=
  omap card_pick (mjoin rows).

(** ** Reference layout of the board

    [snake_index numTeams r t] is the input index of the player a snake
    draft seats at round [r] of team [t]; [snake_cell] is what the board
    holds there. *)

Definition snake_index (numTeams r t : Z) : Z :=
  r * numTeams + (if Z.rem r 2 =? 0 then t else numTeams - 1 - t).

(** The cell for an input index: the player there, or [null] when the
    index is past the last player. *)
Definition index_cell (players : list Player) (i : Z) : cell :=
  match array_get players i with
  | Some p => CPlayer p
  | None => CNull
  end.

Definition snake_cell (players : list Player) (numTeams r t : Z) : cell :=
  index_cell players (snake_index numTeams r t).

Definition snake_column (players : list Player) (numTeams numRounds t : Z)
  : list cell :=
  (λ r, snake_cell players numTeams r t) <$> seqZ 0 numRounds.

Definition snake_board (players : list Player) (numTeams : Z)
  : DraftBoardData :=
  let numRounds := ceil_div (Z.of_nat (length players)) numTeams in
  (λ t, (teamKey t, snake_column players numTeams numRounds t))
    <$> seqZ 0 numTeams.

(** [board[team(teamIndex)][round]] *)
Definition board_at (board : DraftBoardData) (teamIndex round : Z)
  : option cell :=
  obj_get board (teamKey teamIndex) ≫= (λ col, array_get col round).

Definition is_player (c : cell) : bool :=
  match c with CPlayer _ => true | _ => false end.

Definition board_cells (board : DraftBoardData) : list cell :=
  mjoin board.*2.

Definition count_players (cells : list cell) : nat :=
  length (filter (λ c, is_player c) cells).

(** The card the grid shows at a round and a team column. *)
Definition grid_card (rows : list (list card)) (roundIndex teamIndex : Z)
  : option card :=
  array_get rows roundIndex ≫= (λ row, array_get row teamIndex).

Definition strictly_increasing (l : list Z) : Prop :=
  ∀ (i j : nat) (a b : Z),
    (i < j)%nat → l !! i = Some a → l !! j = Some b → a < b.

(** ** Vocabulary for the parser's claims *)

Fixpoint ends_ws (s : jsstring) : bool :=
  match s with
  | [] => false
  | [c] => is_ws c
  | _ :: s' => ends_ws s'
  end.

(** A token: a non-empty string without whitespace. *)
Definition token (s : jsstring) : Prop :=
  s ≠ [] ∧ Forall (λ c, is_ws c = false) s.

(** [String(x)] for a positive integer-valued double [x] prints the digits
    of the shortest decimal numeral that reads back as [x], the one nearest
    to [x] if several are as short.  [shortest_at x k] is that numeral's
    value if [k] significant digits are enough: the multiples of the power
    of ten on either side of [x] are the two to try. *)
Definition reads_as (x y : Z) : bool :=
  bool_decide (to_number false y = Num x).

Definition shortest_at (x k : Z) : option Z :=
  let p := 10 ^ (Z.of_nat (length (decimal x)) - k) in
  let lo := x / p * p in
  let hi := lo + p in
  match reads_as x lo, reads_as x hi with
  | true, true =>
      if x - lo <? hi - x then Some lo
      else if hi - x <? x - lo then Some hi
      else if Z.even (x / p) then Some lo else Some hi
  | true, false => Some lo
  | false, true => Some hi
  | false, false => None
  end.

Definition shortest (x : Z) : Z :=
  default x
    (head (omap (shortest_at x) (seqZ 1 (Z.of_nat (length (decimal x)))))).

Fixpoint drop_zeros (s : jsstring) : jsstring :=
  match s with
  | c :: s' => if decide (c = 48%N) then drop_zeros s' else s
  | [] => []
  end.

(** The form [d.ddde+n], the trailing zeros of the numeral going into the
    exponent. *)
Definition exponent_form (y : Z) : jsstring :=
  let ds := decimal y in
  let exponent := js "e+" ++ decimal (Z.of_nat (length ds) - 1) in
  match rev (drop_zeros (rev ds)) with
  | [] => ds
  | [d] => d :: exponent
  | d :: more => d :: js "." ++ more ++ exponent
  end.

(** Below 2^53 every integer is a double and its own shortest numeral;
    from 10^21 on the exponent form is used. *)
Definition magnitude_to_string (x : Z) : jsstring :=
  if x <? 2 ^ 53 then decimal x
  else if x <? 10 ^ 21 then decimal (shortest x)
  else exponent_form (shortest x).

(** [String(x)] for a rank, which is what a template literal prints. *)
Definition number_to_string (x : number) : jsstring :=
  match x with
  | NaN => js "NaN"
  | Num z =>
      if z <? 0 then js "-" ++ magnitude_to_string (- z)
      else magnitude_to_string z
  | Infinity negative =>
      if negative then js "-Infinity" else js "Infinity"
  end.

(** The line [{rank} {name} {position}] of a record, and the text of a
    sequence of records, a line each. *)
Definition serialize (p : Player) : jsstring :=
  number_to_string (rank p) ++ js " " ++ name p ++ js " " ++ position p.

Definition serialize_all (ps : list Player) : jsstring :=
  join [newline] (serialize <$> ps).

(** The ranks that print as a plain decimal numeral: the integers below
    10^21 in magnitude. *)
Definition plain (x : number) : Prop :=
  match x with
  | Num z => Z.abs z < 10 ^ 21
  | _ => False
  end.

(** What the parser guarantees of a record it pushes: the rank is the
    double of a signed numeral, the name a single-space join of tokens, the
    position a token. *)
Definition well_formed (p : Player) : Prop :=
  ∃ (negative : bool) (m : Z) (mids : list jsstring),
    0 ≤ m ∧ rank p = to_number negative m ∧ mids ≠ [] ∧ Forall token mids ∧
    name p = join (js " ") mids ∧ token (position p).

(** ** Vocabulary for the assigner's proofs *)

(** The team the body of [players.forEach] computes for an input index. *)
Definition teamIndex_of (numTeams i : Z) : Z :=
  if Z.rem (i / numTeams) 2 =? 0 then Z.rem i numTeams
  else numTeams - 1 - Z.rem i numTeams.

(** The grid of rounds after the first [k] players have been placed. *)
Definition grid_ok (players : list Player) (numTeams : Z) (k : nat)
    (rounds : list (list cell)) : Prop :=
  let numRounds := ceil_div (Z.of_nat (length players)) numTeams in
  length rounds = Z.to_nat numRounds ∧
  ∀ r, 0 ≤ r < numRounds →
    ∃ row, rounds !! Z.to_nat r = Some row ∧
      length row = Z.to_nat numTeams ∧
      ∀ t, 0 ≤ t < numTeams →
        row !! Z.to_nat t = Some (snake_cell (take k players) numTeams r t).

(** The bodies of the two loops that fill the board. *)
Definition push_round (rounds : list (list cell)) (t r : Z)
    (board : DraftBoardData) : option DraftBoardData :=
  c ← read_cell rounds r t; board_push board (teamKey t) c.

Definition add_team (rounds : list (list cell)) (numRounds t : Z)
    (board : DraftBoardData) : option DraftBoardData :=
  for_loop numRounds (push_round rounds t) (obj_set board (teamKey t) []).

(** The input indices of the cells of the board, team by team. *)
Definition snake_indices (players : list Player) (numTeams : Z) : list Z :=
  let numRounds := ceil_div (Z.of_nat (length players)) numTeams in
  seqZ 0 numTeams ≫= (λ t, (λ r, snake_index numTeams r t) <$> seqZ 0 numRounds).

(** ** Examples used as witnesses and counterexamples *)

Definition no_picks : gset number := ∅.

(** The seven players of the worked example. *)
Definition seven_players : list Player :=
  (λ k, mkPlayer (Num k) (js "P") (js "RB")) <$> seqZ 1 7.

Definition demo_text : jsstring :=
  js "x A RB" ++ [newline] ++ js "1 A".

Definition rank_demo_text : jsstring :=
  js "1 A" ++ [newline] ++ js "x A RB".

(** A rank of 22 digits, and one of 309 digits, 2 followed by 308 zeros,
    which is past the largest double. *)
Definition big_rank_text : jsstring := js "1000000000000000000000 A RB".

Definition overflow_text : jsstring :=
  js "2" ++ replicate 308 48%N ++ js " A RB".

(** The record the claim C7 describes. *)
Definition record_as_claimed (p : Player) : Prop :=
  (∃ z, rank p = Num z ∧ 1 ≤ z) ∧ name p ≠ [] ∧ position p ≠ [].

(** ** getPositionColorClasses (src/components/DraftBoard.tsx) *)

Record ColorClasses := mkColors {
  border : jsstring;
  text : jsstring
}.

Definition is_ascii (c : char) : bool := (c <? 128)%N.

(** The upper case of an ASCII code unit. *)
Definition ascii_upper (c : char) : char :=
  if ((97 <=? c) && (c <=? 122))%N then (c - 32)%N else c.

Section position_colors.
(** [String.prototype.toUpperCase], which the source does not define. *)
Variable toUpperCase : jsstring → jsstring.

(** The [switch] on [position.slice(0, 2).toUpperCase()]. *)
Definition getPositionColorClasses (position : jsstring) : ColorClasses :=
  let key := toUpperCase (take 2 position) in
  if decide (key = js "WR")
  then mkColors (js "border-l-sky-400") (js "text-sky-400")
  else if decide (key = js "RB")
  then mkColors (js "border-l-emerald-400") (js "text-emerald-400")
  else if decide (key = js "TE")
  then mkColors (js "border-l-amber-400") (js "text-amber-400")
  else if decide (key = js "QB")
  then mkColors (js "border-l-rose-400") (js "text-rose-400")
  else mkColors (js "border-l-gray-500") (js "text-gray-400").
End position_colors.

(** What is known of [toUpperCase]: on a string of ASCII code units it
    works unit by unit. *)
Definition upper_on_ascii (toUpperCase : jsstring → jsstring) : Prop :=
  ∀ s, Forall (λ c, is_ascii c = true) s → toUpperCase s = ascii_upper <$> s.

(** ** The App component (src/App.tsx)

    The state of the component and of the [localStorage] item
    [customPlayerRankings], the handlers, and the three effects.  A step
    is one call of a handler followed by the effects whose dependencies
    differ from those of the render before. *)

Inductive DataSource := Sleeper | Yahoo | ESPN | Custom.

Global Instance DataSource_eq_dec : EqDecision DataSource.
Proof. solve_decision. Defined.

Record AppState := mkApp {
  st_numTeams : Z;
  st_error : option jsstring;
  st_pickedPlayers : gset number;
  st_rawText : jsstring;
  st_dataSource : DataSource;
  st_storage : option jsstring
}.

(** [localStorage.getItem(key) || fallback]: a missing item is [null], and
    the empty string is falsy too. *)
Definition item_or (item : option jsstring) (fallback : jsstring) : jsstring :=
  match item with
  | Some s => if falsy s then fallback else s
  | None => fallback
  end.

(** [localStorage.getItem(key) ? ... : ...] *)
Definition item_truthy (item : option jsstring) : bool :=
  match item with
  | Some s => negb (falsy s)
  | None => false
  end.

(** [const { players, error: parseError } = useMemo(() =>
    parsePlayerText(rawText), [rawText])] *)
Definition parseError (st : AppState) : option jsstring :=
  error (parsePlayerText (st_rawText st)).

Definition parsedPlayers (st : AppState) : list Player :=
  players (parsePlayerText (st_rawText st)).

(** The memoized [draftData]. *)
Definition draftData (st : AppState) : option DraftBoardData :=
  if (0 <? length (parsedPlayers st))%nat
  then generateSnakeDraft (parsedPlayers st) (st_numTeams st)
  else Some [].

(** Whether a dependency differs from its value at the render before;
    at the first render every effect runs. *)
Definition changed {A} `{EqDecision A} (prev : option AppState)
    (dep : AppState → A) (st : AppState) : bool :=
  match prev with
  | None => true
  | Some st0 => bool_decide (dep st0 ≠ dep st)
  end.

(** The three [useEffect]s, in the order of the source: save the custom
    text, copy the parse error, empty the picked set. *)
Definition run_effects (prev : option AppState) (st : AppState) : AppState :=
  let storage :=
    if (changed prev st_rawText st || changed prev st_dataSource st)
       && bool_decide (st_dataSource st = Custom)
    then Some (st_rawText st) else st_storage st in
  let error :=
    if changed prev parseError st then parseError st else st_error st in
  let pickedPlayers :=
    if changed prev st_rawText st then ∅ else st_pickedPlayers st in
  mkApp (st_numTeams st) error pickedPlayers (st_rawText st)
    (st_dataSource st) storage.

Definition card_rank (c : card) : option number :=
  match c with
  | PlayerCard p _ _ _ => Some (rank p)
  | EmptyCard _ => None
  end.

(** What the user can do: the callbacks handed to [Controls], and a click
    or a key press on the card at a round and a team column of the grid. *)
Inductive event :=
  | DataSourceChange (source : DataSource)
  | RawTextChange (newText : jsstring)
  | SetNumTeams (n : Z)
  | CardClick (roundIndex teamIndex : Z)
  | CardKeyDown (key : jsstring) (roundIndex teamIndex : Z).

Section App.
(** The preset lists of [./constants], which is not among the sources. *)
Variables SLEEPER_PLAYER_LIST YAHOO_PLAYER_LIST ESPN_PLAYER_LIST : jsstring.

(** The [useState] initializers. *)
Definition initial_state (storage : option jsstring) : AppState :=
  mkApp 10 None ∅
    (item_or storage SLEEPER_PLAYER_LIST)
    (if item_truthy storage then Custom else Sleeper)
    storage.

Definition preset (source : DataSource) (storage : option jsstring)
  : jsstring :=
  match source with
  | Sleeper => SLEEPER_PLAYER_LIST
  | Yahoo => YAHOO_PLAYER_LIST
  | ESPN => ESPN_PLAYER_LIST
  | Custom => item_or storage []
  end.

Definition handleDataSourceChange (source : DataSource) (st : AppState)
  : AppState :=
  mkApp (st_numTeams st) (st_error st) (st_pickedPlayers st)
    (preset source (st_storage st)) source (st_storage st).

Definition handleRawTextChange (newText : jsstring) (st : AppState)
  : AppState :=
  mkApp (st_numTeams st) (st_error st) (st_pickedPlayers st) newText
    (if bool_decide (st_dataSource st ≠ Custom) then Custom
     else st_dataSource st)
    (st_storage st).

Definition setNumTeams (n : Z) (st : AppState) : AppState :=
  mkApp n (st_error st) (st_pickedPlayers st) (st_rawText st)
    (st_dataSource st) (st_storage st).

(** [onTogglePicked(player.rank)] of the card shown at a place of the
    grid; an empty card, or no card, has no handler. *)
Definition toggle_card (roundIndex teamIndex : Z) (st : AppState)
  : option AppState :=
  board ← draftData st;
  let grid := DraftBoard board (st_numTeams st) (st_pickedPlayers st) in
  Some match grid_card grid roundIndex teamIndex ≫= card_rank with
       | Some playerRank =>
           mkApp (st_numTeams st) (st_error st)
             (handleTogglePlayerPicked playerRank (st_pickedPlayers st))
             (st_rawText st) (st_dataSource st) (st_storage st)
       | None => st
       end.

Definition handle (ev : event) (st : AppState) : option AppState :=
  match ev with
  | DataSourceChange source => Some (handleDataSourceChange source st)
  | RawTextChange newText => Some (handleRawTextChange newText st)
  | SetNumTeams n => Some (setNumTeams n st)
  | CardClick roundIndex teamIndex => toggle_card roundIndex teamIndex st
  | CardKeyDown key roundIndex teamIndex =>
      if bool_decide (key = js "Enter" ∨ key = js " ")
      then toggle_card roundIndex teamIndex st
      else Some st
  end.

Definition app_step (st : AppState) (ev : event) : option AppState :=
  st' ← handle ev st; Some (run_effects (Some st) st').

(** The state once the component has mounted. *)
Definition mount (storage : option jsstring) : AppState :=
  run_effects None (initial_state storage).

Inductive reachable : AppState → Prop :=
  | reachable_mount storage : reachable (mount storage)
  | reachable_step st ev st' :
      reachable st → app_step st ev = Some st' → reachable st'.
End App.

(** A run of events. *)
Fixpoint app_run (sleeper yahoo espn : jsstring) (st : AppState)
    (evs : list event) : option AppState :=
  match evs with
  | [] => Some st
  | ev :: evs' =>
      st' ← app_step sleeper yahoo espn st ev;
      app_run sleeper yahoo espn st' evs'
  end.

Definition is_edit (ev : event) : bool :=
  match ev with RawTextChange _ => true | _ => false end.

Definition is_card_event (ev : event) : bool :=
  match ev with CardClick _ _ | CardKeyDown _ _ _ => true | _ => false end.

(** What holds of the state after every step. *)
Definition app_inv (sleeper yahoo espn : jsstring) (st : AppState) : Prop :=
  st_error st = parseError st ∧
  (st_dataSource st = Custom → st_storage st = Some (st_rawText st)) ∧
  (st_dataSource st ≠ Custom →
   st_rawText st = preset sleeper yahoo espn (st_dataSource st) None) ∧
  (∀ r, r ∈ st_pickedPlayers st → ∃ p, p ∈ parsedPlayers st ∧ rank p = r).

(** A session used in examples: the stored text [9 Z QB] is found at
    mount, so the component starts under [Custom]. *)
Definition demo_state : AppState :=
  mount (js "1 A RB") (Some (js "9 Z QB")).

Definition default_colors : ColorClasses :=
  mkColors (js "border-l-gray-500") (js "text-gray-400").

(** ** Vocabulary for the further properties *)

Definition blank (line : jsstring) : Prop := trim line = [].

Global Instance blank_dec (line : jsstring) : Decision (blank line).
Proof. unfold blank. apply _. Defined.

(** A line at which the parser stops, and the message it then returns. *)
Definition offending (line e : jsstring) : Prop :=
  ¬ blank line ∧
  (((length (split_ws (trim line)) < 3)%nat ∧ e = malformed_msg line) ∨
   ((3 ≤ length (split_ws (trim line)))%nat ∧
    parseInt (default [] (split_ws (trim line) !! 0%nat)) = NaN ∧
    e = could_not_parse_msg line)).

(** A line the parser turns into a record. *)
Definition acceptable (line : jsstring) : Prop :=
  (3 ≤ length (split_ws (trim line)))%nat ∧
  parseInt (default [] (split_ws (trim line) !! 0%nat)) ≠ NaN.

(** The input indices of the cells of the board, round by round. *)
Definition round_major_indices (players : list Player) (numTeams : Z)
  : list Z :=
  let numRounds := ceil_div (Z.of_nat (length players)) numTeams in
  seqZ 0 numRounds ≫= (λ r, snake_index numTeams r <$> seqZ 0 numTeams).

(** The pick number the grid shows for an input index, if a player is
    there. *)
Definition index_pick (players : list Player) (i : Z) : option Z :=
  match array_get players i with
  | Some _ => Some (i + 1)
  | None => None
  end.

Definition starts_digit (s : jsstring) : bool :=
  match s with c :: _ => is_digit c | [] => false end.

Definition cell_player (c : cell) : option Player :=
  match c with
  | CPlayer p => Some p
  | _ => None
  end.

(** A card with its picked flag inverted when its player has the rank. *)
Definition flip_rank (playerRank : number) (c : card) : card :=
  match c with
  | PlayerCard p pick round isPicked =>
      PlayerCard p pick round
        (if decide (rank p = playerRank) then negb isPicked else isPicked)
  | EmptyCard round => EmptyCard round
  end.

(** * Proofs *)

(** ** Arithmetic of the snake order *)

Section snake_arith.
Variable T : Z.
Hypothesis T_pos : 0 < T.

Lemma teamIndex_of_range i : 0 ≤ i → 0 ≤ teamIndex_of T i < T.
Proof.
  intros Hi. unfold teamIndex_of. rewrite (Z.rem_mod_nonneg i T) by lia.
  pose proof (Z.mod_pos_bound i T T_pos). destruct (_ =? _); lia.
Qed.

Lemma snake_index_teamIndex_of i :
  0 ≤ i → snake_index T (i / T) (teamIndex_of T i) = i.
Proof.
  intros Hi. unfold snake_index, teamIndex_of.
  rewrite (Z.rem_mod_nonneg i T) by lia.
  pose proof (Z.div_mod i T ltac:(lia)).
  destruct (_ =? _); lia.
Qed.

Lemma snake_index_inv r t i :
  0 ≤ r → 0 ≤ t < T → snake_index T r t = i →
  r = i / T ∧ t = teamIndex_of T i.
Proof.
  intros Hr0 Ht Hi. unfold snake_index in Hi.
  set (u := if Z.rem r 2 =? 0 then t else T - 1 - t) in Hi.
  assert (0 ≤ u < T) as Hu by (subst u; destruct (_ =? _); lia).
  assert (t = if Z.rem r 2 =? 0 then u else T - 1 - u) as Htu
    by (subst u; destruct (_ =? _); lia).
  clearbody u.
  assert (r = i / T) as Hr by (apply (Z.div_unique i T r u); lia).
  assert (u = i mod T) as Hm by (apply (Z.mod_unique i T r u); lia).
  split; [done|]. unfold teamIndex_of.
  rewrite <- Hr, Htu, Hm, (Z.rem_mod_nonneg i T) by nia. done.
Qed.

Lemma snake_index_range r t R :
  0 ≤ r < R → 0 ≤ t < T → 0 ≤ snake_index T r t < R * T.
Proof.
  intros Hr Ht. unfold snake_index. destruct (_ =? _); nia.
Qed.

Lemma ceil_div_bounds n :
  0 ≤ n → n ≤ ceil_div n T * T < n + T.
Proof.
  intros Hn. unfold ceil_div.
  pose proof (Z.div_mod (- n) T ltac:(lia)).
  pose proof (Z.mod_pos_bound (- n) T T_pos). nia.
Qed.

Lemma round_lt_numRounds n i :
  0 ≤ i < n → 0 ≤ i / T < ceil_div n T.
Proof.
  intros Hi. pose proof (ceil_div_bounds n ltac:(lia)).
  split; [apply Z.div_pos; lia|].
  apply Z.div_lt_upper_bound; [lia|]. nia.
Qed.
End snake_arith.

(** ** The grid of rounds *)

Lemma for_each_push {A} (x : A) (idx : list Z) (s : list A) :
  for_each (λ _ s, Some (s ++ [x])) idx s
  = Some (s ++ replicate (length idx) x).
Proof.
  revert s. induction idx as [|i idx IH]; intros s; simpl.
  - by rewrite app_nil_r.
  - by rewrite IH, <- app_assoc.
Qed.

Lemma for_loop_push {A} (x : A) (n : Z) :
  for_loop n (λ _ s, Some (s ++ [x])) [] = Some (replicate (Z.to_nat n) x).
Proof. unfold for_loop. by rewrite for_each_push, length_seqZ. Qed.

Lemma array_get_Some {A} (a : list A) (i : Z) (x : A) :
  array_get a i = Some x ↔ 0 ≤ i ∧ a !! Z.to_nat i = Some x.
Proof.
  unfold array_get. destruct (Z.ltb_spec i 0).
  - split; [done|]. intros [? _]. lia.
  - split; [by intros|]. by intros [_ ?].
Qed.

Lemma array_get_fmap_seqZ {A} (f : Z → A) (n i : Z) :
  0 ≤ i < n → array_get (f <$> seqZ 0 n) i = Some (f i).
Proof.
  intros Hi. apply array_get_Some. split; [lia|].
  rewrite list_lookup_fmap, lookup_seqZ_lt by lia. simpl. f_equal. f_equal. lia.
Qed.

Lemma array_get_nat {A} (a : list A) (k : nat) :
  array_get a (Z.of_nat k) = a !! k.
Proof.
  unfold array_get. destruct (Z.ltb_spec (Z.of_nat k) 0); [lia|].
  by rewrite Nat2Z.id.
Qed.

Lemma array_get_take_S {A} (a : list A) (k : nat) (x : A) (i : Z) :
  a !! k = Some x →
  array_get (take (S k) a) i
  = if decide (i = Z.of_nat k) then Some x else array_get (take k a) i.
Proof.
  intros Hk. pose proof (lookup_lt_Some _ _ _ Hk) as Hlt.
  rewrite (take_S_r _ _ _ Hk). unfold array_get.
  destruct (Z.ltb_spec i 0); [by rewrite decide_False by lia|].
  destruct (decide (i = Z.of_nat k)) as [->|Hne].
  - rewrite Nat2Z.id, lookup_app_r by (rewrite length_take; lia).
    rewrite length_take. by replace (k - k `min` length a)%nat with 0%nat by lia.
  - destruct (decide (Z.to_nat i < k)%nat).
    + by rewrite lookup_app_l by (rewrite length_take; lia).
    + rewrite !lookup_ge_None_2; [done| |].
      * rewrite length_take; lia.
      * rewrite length_app, length_take; simpl; lia.
Qed.

Section placement.
Variable players : list Player.
Variable T : Z.
Hypothesis T_pos : 0 < T.

Local Abbreviation n := (Z.of_nat (length players)).
Local Abbreviation R := (ceil_div (Z.of_nat (length players)) T).

Lemma grid_ok_init :
  grid_ok players T 0 (replicate (Z.to_nat R) (replicate (Z.to_nat T) CNull)).
Proof.
  split; [by rewrite length_replicate|].
  intros r Hr. exists (replicate (Z.to_nat T) CNull).
  split; [apply lookup_replicate_2; lia|].
  split; [by rewrite length_replicate|].
  intros t Ht. rewrite lookup_replicate_2 by lia.
  unfold snake_cell, index_cell, array_get. simpl. by destruct (_ <? _).
Qed.

Lemma grid_ok_place k p rounds :
  players !! k = Some p →
  grid_ok players T k rounds →
  grid_ok players T (S k) (place T p (Z.of_nat k) rounds).
Proof.
  intros Hp [Hlen Hrows].
  pose proof (lookup_lt_Some _ _ _ Hp) as Hk.
  assert (0 ≤ Z.of_nat k < n) as Hkn by lia.
  pose proof (round_lt_numRounds T T_pos n _ Hkn) as Hround.
  pose proof (teamIndex_of_range T T_pos (Z.of_nat k) ltac:(lia)) as Hteam.
  destruct (Hrows _ Hround) as (row & Hrow & Hrowlen & Hcells).
  unfold place. fold (teamIndex_of T (Z.of_nat k)).
  replace (array_get rounds (Z.of_nat k / T)) with (Some row)
    by (symmetry; apply array_get_Some; split; [lia|done]).
  replace (teamIndex_of T (Z.of_nat k) <? T) with true
    by (symmetry; apply Z.ltb_lt; lia).
  unfold row_set.
  replace (teamIndex_of T (Z.of_nat k) <? 0) with false
    by (symmetry; apply Z.ltb_ge; lia).
  replace (teamIndex_of T (Z.of_nat k) <? Z.of_nat (length row)) with true
    by (symmetry; apply Z.ltb_lt; lia).
  split; [by rewrite length_insert|].
  intros r Hr. destruct (decide (r = Z.of_nat k / T)) as [->|Hne].
  - eexists. split; [apply list_lookup_insert_eq; lia|].
    split; [by rewrite length_insert|].
    intros t Ht. unfold snake_cell, index_cell.
    rewrite (array_get_take_S _ _ _ _ Hp).
    destruct (decide (t = teamIndex_of T (Z.of_nat k))) as [->|Hnt].
    + rewrite list_lookup_insert_eq by lia.
      by rewrite snake_index_teamIndex_of, decide_True by lia.
    + rewrite list_lookup_insert_ne by lia.
      rewrite decide_False; [by apply Hcells|].
      intros Hidx. apply snake_index_inv in Hidx; [|lia..]. lia.
  - destruct (Hrows _ Hr) as (row' & Hrow' & Hrowlen' & Hcells').
    exists row'. split; [by rewrite list_lookup_insert_ne by lia|].
    split; [done|]. intros t Ht. unfold snake_cell, index_cell.
    rewrite (array_get_take_S _ _ _ _ Hp), decide_False; [by apply Hcells'|].
    intros Hidx. apply snake_index_inv in Hidx; [|lia..]. lia.
Qed.

Lemma grid_ok_forEach_from rest :
  ∀ k rounds,
    drop k players = rest →
    grid_ok players T k rounds →
    grid_ok players T (length players)
      (forEach_from (place T) rest (Z.of_nat k) rounds).
Proof.
  induction rest as [|p rest IH]; intros k rounds Hdrop Hok; simpl.
  - apply drop_nil_inv in Hdrop. unfold grid_ok in *.
    rewrite firstn_all. by rewrite take_ge in Hok.
  - assert (players !! k = Some p) as Hp.
    { rewrite <- (Nat.add_0_r k), <- lookup_drop, Hdrop. done. }
    replace (Z.of_nat k + 1) with (Z.of_nat (S k)) by lia.
    apply IH; [|by apply grid_ok_place].
    by rewrite <- Nat.add_1_l, Nat.add_comm, <- drop_drop, Hdrop.
Qed.

(** The grid once every player has been placed. *)
Lemma grid_ok_forEach :
  grid_ok players T (length players)
    (forEach (place T) players
       (replicate (Z.to_nat R) (replicate (Z.to_nat T) CNull))).
Proof. apply (grid_ok_forEach_from players 0%nat); [done|apply grid_ok_init]. Qed.
End placement.

(** ** Decimal numerals *)

Lemma digits_value_snoc (ds : jsstring) (c : char) :
  digits_value (ds ++ [c]) = digits_value ds * 10 + (Z.of_N c - 48).
Proof. unfold digits_value. by rewrite foldl_app. Qed.

Lemma digits_le_value (fuel : nat) :
  ∀ n, 0 ≤ n < 2 ^ Z.of_nat fuel → digits_value (rev (digits_le fuel n)) = n.
Proof.
  induction fuel as [|fuel IH]; intros n Hn.
  - simpl in *. assert (n = 0) by lia. by subst.
  - simpl. destruct (Z.leb_spec n 0); [unfold digits_value; simpl; lia|].
    simpl. rewrite digits_value_snoc.
    rewrite Nat2Z.inj_succ, Z.pow_succ_r in Hn by lia.
    pose proof (Z.div_mod n 10 ltac:(lia)).
    pose proof (Z.mod_pos_bound n 10 ltac:(lia)).
    rewrite IH by lia. lia.
Qed.

Lemma digits_le_digits (fuel : nat) (n : Z) :
  Forall (λ c, is_digit c = true) (digits_le fuel n).
Proof.
  revert n. induction fuel as [|fuel IH]; intros n; simpl; [constructor|].
  destruct (n <=? 0); constructor; [|apply IH].
  pose proof (Z.mod_pos_bound n 10 ltac:(lia)).
  unfold is_digit. apply andb_true_iff. split; apply N.leb_le; lia.
Qed.

Lemma decimal_digits (n : Z) : Forall (λ c, is_digit c = true) (decimal n).
Proof.
  unfold decimal. destruct (n <=? 0).
  - by repeat constructor.
  - apply Forall_rev, digits_le_digits.
Qed.

Lemma decimal_nonempty (n : Z) : decimal n ≠ [].
Proof.
  unfold decimal. destruct (Z.leb_spec n 0); [done|].
  simpl. destruct (Z.leb_spec n 0); [lia|].
  simpl. intros Heq. by apply app_eq_nil in Heq as [_ ?].
Qed.

Lemma decimal_value (n : Z) : 0 ≤ n → digits_value (decimal n) = n.
Proof.
  intros Hn. unfold decimal. destruct (Z.leb_spec n 0).
  - assert (n = 0) by lia. by subst.
  - apply digits_le_value. pose proof (Z.log2_spec n ltac:(lia)).
    pose proof (Z.log2_nonneg n).
    rewrite Nat2Z.inj_succ, Z2Nat.id by lia. lia.
Qed.

Lemma take_digits_all (ds : jsstring) :
  Forall (λ c, is_digit c = true) ds → take_digits ds = ds.
Proof.
  induction 1 as [|c ds Hc _ IH]; simpl; [done|]. by rewrite Hc, IH.
Qed.

Lemma is_digit_not_ws (c : char) : is_digit c = true → is_ws c = false.
Proof.
  unfold is_digit. intros [H1 H2]%andb_true_iff.
  apply N.leb_le in H1. apply N.leb_le in H2.
  unfold is_ws. apply orb_false_iff. split.
  - apply bool_decide_eq_false. rewrite !elem_of_cons, elem_of_nil. lia.
  - apply andb_false_iff. left. apply N.leb_gt. lia.
Qed.

Lemma digit_not_sign (c : char) :
  is_digit c = true → c ≠ minus_sign ∧ c ≠ plus_sign.
Proof.
  unfold is_digit. intros [H1 _]%andb_true_iff.
  apply N.leb_le in H1. unfold minus_sign, plus_sign. lia.
Qed.

Lemma parseInt_digits (ds : jsstring) :
  ds ≠ [] → Forall (λ c, is_digit c = true) ds →
  parseInt ds = to_number false (digits_value ds).
Proof.
  intros Hne Hds. destruct ds as [|c ds]; [done|].
  pose proof (Forall_inv Hds) as Hc.
  unfold parseInt. simpl drop_ws. rewrite (is_digit_not_ws _ Hc).
  destruct (digit_not_sign c Hc) as [H45 H43].
  rewrite !decide_False by done.
  by rewrite take_digits_all by done.
Qed.

Lemma parseInt_minus_digits (ds : jsstring) :
  ds ≠ [] → Forall (λ c, is_digit c = true) ds →
  parseInt (js "-" ++ ds) = to_number true (digits_value ds).
Proof.
  intros Hne Hds. unfold parseInt. simpl.
  rewrite take_digits_all by done. by destruct ds.
Qed.

Lemma decimal_inj (a b : Z) : 0 ≤ a → 0 ≤ b → decimal a = decimal b → a = b.
Proof.
  intros Ha Hb Heq. rewrite <- (decimal_value a), <- (decimal_value b) by done.
  by rewrite Heq.
Qed.

Lemma decimal_head_not_minus (n : Z) (s : jsstring) :
  decimal n ≠ minus_sign :: s.
Proof.
  intros Heq. pose proof (decimal_digits n) as Hds. rewrite Heq in Hds.
  by destruct (digit_not_sign _ (Forall_inv Hds)).
Qed.

Lemma int_to_string_inj (a b : Z) : int_to_string a = int_to_string b → a = b.
Proof.
  unfold int_to_string.
  destruct (Z.ltb_spec a 0), (Z.ltb_spec b 0); intros Heq.
  - apply app_inv_head, decimal_inj in Heq; lia.
  - symmetry in Heq. by apply decimal_head_not_minus in Heq.
  - by apply decimal_head_not_minus in Heq.
  - by apply decimal_inj.
Qed.

(** ** Doubles *)

Lemma float_round_small (m : Z) : m < 2 ^ 53 → float_round m = m.
Proof.
  intros Hm. unfold float_round.
  destruct (Z.leb_spec (Z.log2 m - 52) 0) as [|He]; [done|].
  exfalso. destruct (Z.le_gt_cases m 0) as [H0|H0].
  - rewrite Z.log2_nonpos in He by done. lia.
  - apply Z.log2_lt_pow2 in Hm; lia.
Qed.

(** A significand of 53 bits times a power of two is left alone. *)
Lemma float_round_fixed (e q : Z) :
  1 ≤ e → 2 ^ 52 ≤ q < 2 ^ 53 → float_round (q * 2 ^ e) = q * 2 ^ e.
Proof.
  intros He Hq.
  assert (0 < 2 ^ e) as HP by (apply Z.pow_pos_nonneg; lia).
  assert (0 < 2 ^ (e - 1)) as Hhalf by (apply Z.pow_pos_nonneg; lia).
  assert (Z.log2 (q * 2 ^ e) = 52 + e) as Hlog.
  { apply Z.log2_unique; [lia|].
    replace (Z.succ (52 + e)) with (53 + e) by lia.
    rewrite !Z.pow_add_r by lia.
    split; [apply Z.mul_le_mono_nonneg_r|apply Z.mul_lt_mono_pos_r]; lia. }
  unfold float_round. rewrite Hlog.
  replace (52 + e - 52) with e by lia.
  destruct (Z.leb_spec e 0); [lia|].
  rewrite Z.div_mul, Z.mod_mul by lia.
  destruct (Z.ltb_spec (2 ^ (e - 1)) 0); [lia|].
  destruct (Z.eqb_spec 0 (2 ^ (e - 1))); [lia|done].
Qed.

Lemma float_round_cases (m : Z) :
  float_round m = m
  ∨ ∃ e q, 1 ≤ e ∧ 2 ^ 52 ≤ q < 2 ^ 53 ∧ float_round m = q * 2 ^ e.
Proof.
  unfold float_round.
  destruct (Z.leb_spec (Z.log2 m - 52) 0) as [|He]; [by left|right].
  set (e := Z.log2 m - 52) in *.
  assert (0 < m) as Hm.
  { destruct (Z.le_gt_cases m 0) as [H0|]; [|done].
    unfold e in He. rewrite Z.log2_nonpos in He by done. lia. }
  assert (0 < 2 ^ e) as HP by (apply Z.pow_pos_nonneg; lia).
  pose proof (Z.log2_spec m Hm) as [Hlo Hhi].
  replace (Z.succ (Z.log2 m)) with (53 + e) in Hhi by (unfold e; lia).
  replace (Z.log2 m) with (52 + e) in Hlo by (unfold e; lia).
  rewrite Z.pow_add_r in Hlo, Hhi by lia.
  assert (2 ^ 52 ≤ m / 2 ^ e < 2 ^ 53) as Hq.
  { split.
    - apply Z.div_le_lower_bound; lia.
    - apply Z.div_lt_upper_bound; lia. }
  assert (∀ q, 2 ^ 52 ≤ q ≤ 2 ^ 53 →
            ∃ e' q', 1 ≤ e' ∧ 2 ^ 52 ≤ q' < 2 ^ 53 ∧ q * 2 ^ e = q' * 2 ^ e')
    as Hnorm.
  { intros q Hq'. destruct (decide (q = 2 ^ 53)) as [->|].
    - exists (e + 1), (2 ^ 52). split; [lia|]. split; [lia|].
      rewrite Z.pow_add_r by lia. lia.
    - exists e, q. lia. }
  destruct (_ || _); apply Hnorm; lia.
Qed.

Lemma float_round_idem (m : Z) : float_round (float_round m) = float_round m.
Proof.
  destruct (float_round_cases m) as [Heq|(e & q & He & Hq & Heq)].
  - rewrite Heq. exact Heq.
  - rewrite Heq. by apply float_round_fixed.
Qed.

Lemma float_round_nonneg (m : Z) : 0 ≤ m → 0 ≤ float_round m.
Proof.
  intros Hm. destruct (float_round_cases m) as [->|(e & q & He & Hq & ->)].
  - done.
  - apply Z.mul_nonneg_nonneg; [lia|]. apply Z.pow_nonneg. lia.
Qed.

Lemma to_number_small (negative : bool) (m : Z) :
  m < 2 ^ 53 → to_number negative m = Num (if negative then - m else m).
Proof.
  intros Hm. unfold to_number. rewrite float_round_small by done.
  destruct (Z.leb_spec (2 ^ 1024) m) as [Hbig|]; [|done].
  exfalso. assert (2 ^ 53 < 2 ^ 1024) by (apply Z.pow_lt_mono_r; lia). lia.
Qed.

Lemma to_number_Num (negative : bool) (m z : Z) :
  to_number negative m = Num z →
  float_round m < 2 ^ 1024 ∧ z = if negative then - float_round m else float_round m.
Proof.
  unfold to_number. destruct (Z.leb_spec (2 ^ 1024) (float_round m)); [done|].
  intros [= <-]. done.
Qed.

Lemma to_number_not_NaN (negative : bool) (m : Z) : to_number negative m ≠ NaN.
Proof. unfold to_number. by destruct (_ <=? _). Qed.

(** A double [parseInt] returned is the double nearest to itself. *)
Lemma to_number_idem (negative : bool) (m z : Z) :
  0 ≤ m → to_number negative m = Num z →
  to_number (z <? 0) (Z.abs z) = Num z.
Proof.
  intros Hm [Hlt Hz]%to_number_Num.
  pose proof (float_round_nonneg m Hm) as Hv.
  assert (Z.abs z = float_round m) as Habs by (destruct negative; lia).
  unfold to_number. rewrite Habs, float_round_idem.
  destruct (Z.leb_spec (2 ^ 1024) (float_round m)); [lia|].
  f_equal. destruct (Z.ltb_spec z 0); destruct negative; lia.
Qed.

Lemma teamKey_inj (t t' : Z) : teamKey t = teamKey t' → t = t'.
Proof.
  unfold teamKey. intros Heq%app_inv_head%int_to_string_inj. lia.
Qed.

(** ** Objects as insertion-ordered dictionaries *)

Lemma obj_get_set_eq {V} (o : list (jsstring * V)) k v :
  obj_get (obj_set o k v) k = Some v.
Proof.
  induction o as [|[k' v'] o IH]; simpl.
  - by rewrite decide_True.
  - destruct (decide (k' = k)); simpl.
    + by rewrite decide_True.
    + by rewrite decide_False.
Qed.

Lemma obj_set_set {V} (o : list (jsstring * V)) k v v' :
  obj_set (obj_set o k v) k v' = obj_set o k v'.
Proof.
  induction o as [|[k' v''] o IH]; simpl.
  - by rewrite decide_True.
  - destruct (decide (k' = k)); simpl.
    + by rewrite decide_True.
    + by rewrite decide_False, IH.
Qed.

Lemma obj_set_fresh {V} (o : list (jsstring * V)) k v :
  k ∉ obj_keys o → obj_set o k v = o ++ [(k, v)].
Proof.
  unfold obj_keys. induction o as [|[k' v'] o IH]; simpl; intros Hk; [done|].
  apply not_elem_of_cons in Hk as [Hne Hk].
  rewrite decide_False by done. by rewrite IH.
Qed.

Lemma obj_get_fmap {V} (f : Z → V) (ts : list Z) (t : Z) :
  t ∈ ts → obj_get ((λ t, (teamKey t, f t)) <$> ts) (teamKey t) = Some (f t).
Proof.
  induction ts as [|t' ts IH]; intros Hin; [by apply elem_of_nil in Hin|].
  simpl. destruct (decide (teamKey t' = teamKey t)) as [Heq|Hne].
  - by apply teamKey_inj in Heq as ->.
  - apply elem_of_cons in Hin as [->|Hin]; [done|]. by apply IH.
Qed.

(** ** The loops that build the board *)

Section board_loops.
Variable rounds : list (list cell).
Variable f : Z → Z → cell.
Variable numRounds : Z.

Lemma column_loop t (idx : list Z) :
  ∀ board col,
    (∀ r, r ∈ idx → read_cell rounds r t = Some (f r t)) →
    obj_get board (teamKey t) = Some col →
    for_each (push_round rounds t) idx board
    = Some (obj_set board (teamKey t) (col ++ ((λ r, f r t) <$> idx))).
Proof.
  induction idx as [|r idx IH]; intros board col Hread Hcol.
  - simpl. rewrite app_nil_r. f_equal. clear -Hcol.
    induction board as [|[k v] board IH]; simpl in *; [done|].
    destruct (decide (k = teamKey t)); [simplify_eq; reflexivity|].
    by rewrite <- IH.
  - cbn [for_each].
    assert (push_round rounds t r board
            = Some (obj_set board (teamKey t) (col ++ [f r t]))) as ->.
    { unfold push_round, board_push.
      rewrite Hread by apply list_elem_of_here. simpl. by rewrite Hcol. }
    cbn [mbind option_bind].
    rewrite (IH _ (col ++ [f r t])).
    + by rewrite obj_set_set, fmap_cons, <- app_assoc.
    + intros r' Hr'. apply Hread. by apply list_elem_of_further.
    + apply obj_get_set_eq.
Qed.

Lemma team_loop (ts : list Z) :
  ∀ board,
    NoDup ts →
    (∀ t, t ∈ ts → teamKey t ∉ obj_keys board) →
    (∀ t r, t ∈ ts → r ∈ seqZ 0 numRounds →
            read_cell rounds r t = Some (f r t)) →
    for_each (add_team rounds numRounds) ts board
    = Some (board ++
              ((λ t, (teamKey t, (λ r, f r t) <$> seqZ 0 numRounds)) <$> ts)).
Proof.
  induction ts as [|t ts IH]; intros board Hnd Hfresh Hread.
  - simpl. by rewrite app_nil_r.
  - apply NoDup_cons in Hnd as [Hnotin Hnd].
    cbn [for_each].
    assert (add_team rounds numRounds t board
            = Some (board ++ [(teamKey t, (λ r, f r t) <$> seqZ 0 numRounds)]))
      as ->.
    { unfold add_team, for_loop. rewrite (column_loop t _ _ []).
      - simpl. by rewrite obj_set_set, obj_set_fresh
          by (apply Hfresh, list_elem_of_here).
      - intros r Hr. by apply Hread; [apply list_elem_of_here|].
      - apply obj_get_set_eq. }
    cbn [mbind option_bind].
    rewrite IH; [by rewrite <- app_assoc|done| |].
    + intros t' Ht'. unfold obj_keys. rewrite fmap_app, elem_of_app.
      intros [Hin|Hin].
      * by apply (Hfresh t'); [apply list_elem_of_further|].
      * simpl in Hin. apply list_elem_of_singleton, teamKey_inj in Hin.
        by subst.
    + intros t' r Ht'. apply Hread. by apply list_elem_of_further.
Qed.
End board_loops.

(** The board is the reference layout. *)
Lemma generateSnakeDraft_snake_board (players : list Player) (numTeams : Z) :
  players ≠ [] → 0 < numTeams < 2 ^ 32 →
  generateSnakeDraft players numTeams = Some (snake_board players numTeams).
Proof.
  intros Hne [HT Hmax]. unfold generateSnakeDraft.
  replace (length players =? 0)%nat with false
    by (symmetry; apply Nat.eqb_neq; by destruct players).
  replace (numTeams <=? 0) with false by (symmetry; apply Z.leb_gt; lia).
  cbn [orb]. unfold new_array.
  replace ((0 <=? numTeams) && (numTeams <=? max_array_length)) with true
    by (symmetry; apply andb_true_iff; unfold max_array_length;
        split; apply Z.leb_le; lia).
  cbn [mbind option_bind]. rewrite for_loop_push. cbn [mbind option_bind].
  pose proof (grid_ok_forEach players numTeams HT) as [Hlen Hgrid].
  rewrite firstn_all in Hgrid.
  set (R := ceil_div (Z.of_nat (length players)) numTeams) in *.
  set (rounds := forEach _ _ _) in *.
  change (for_loop numTeams _ []) with
    (for_each (add_team rounds R) (seqZ 0 numTeams) []).
  rewrite (team_loop rounds (snake_cell players numTeams) R).
  - done.
  - apply NoDup_seqZ.
  - intros t _. unfold obj_keys. simpl. apply not_elem_of_nil.
  - intros t r Ht%elem_of_seqZ Hr%elem_of_seqZ.
    destruct (Hgrid r ltac:(lia)) as (row & Hrow & _ & Hcells).
    unfold read_cell.
    replace (array_get rounds r) with (Some row)
      by (symmetry; apply array_get_Some; split; [lia|done]).
    simpl. f_equal.
    replace (array_get row t) with (Some (snake_cell players numTeams r t));
      [done|].
    symmetry. apply array_get_Some. split; [lia|]. apply Hcells. lia.
Qed.

(** From 2^32 teams on, the first row cannot be allocated. *)
Lemma generateSnakeDraft_throws (players : list Player) (numTeams : Z) :
  players ≠ [] → 2 ^ 32 ≤ numTeams →
  generateSnakeDraft players numTeams = None.
Proof.
  intros Hne HT. unfold generateSnakeDraft.
  replace (length players =? 0)%nat with false
    by (symmetry; apply Nat.eqb_neq; by destruct players).
  replace (numTeams <=? 0) with false by (symmetry; apply Z.leb_gt; lia).
  cbn [orb].
  assert (0 < length players)%nat by (destruct players; [done|simpl; lia]).
  pose proof (ceil_div_bounds numTeams ltac:(lia)
                (Z.of_nat (length players)) ltac:(lia)) as HR.
  assert (for_loop (ceil_div (Z.of_nat (length players)) numTeams)
            (λ (_ : Z) (rounds : list (list cell)),
               row ← new_array numTeams CNull; Some (rounds ++ [row])) []
          = None) as ->; [|done].
  unfold for_loop. rewrite seqZ_cons by nia.
  cbn [for_each]. unfold new_array.
  replace (numTeams <=? max_array_length) with false
    by (symmetry; apply Z.leb_gt; unfold max_array_length; lia).
  by rewrite andb_false_r.
Qed.

(** ** Reading and counting the reference layout *)

Lemma board_at_snake_board (players : list Player) (numTeams t r : Z) :
  0 ≤ t < numTeams →
  0 ≤ r < ceil_div (Z.of_nat (length players)) numTeams →
  board_at (snake_board players numTeams) t r
  = Some (snake_cell players numTeams r t).
Proof.
  intros Ht Hr. unfold board_at, snake_board.
  rewrite (obj_get_fmap (λ t, snake_column players numTeams _ t))
    by (apply elem_of_seqZ; lia).
  simpl. unfold snake_column. by rewrite array_get_fmap_seqZ by lia.
Qed.

Lemma filter_all {A} (P : A → Prop) `{!∀ x, Decision (P x)} (l : list A) :
  Forall P l → filter P l = l.
Proof.
  induction 1 as [|x l Hx _ IH]; [done|].
  by rewrite filter_cons_True, IH.
Qed.

Lemma filter_none {A} (P : A → Prop) `{!∀ x, Decision (P x)} (l : list A) :
  Forall (λ x, ¬ P x) l → filter P l = [].
Proof.
  induction 1 as [|x l Hx _ IH]; [done|].
  by rewrite filter_cons_False.
Qed.

Lemma length_filter_fmap {A B} (f : A → B) (P : B → Prop)
    `{!∀ y, Decision (P y)} (l : list A) :
  length (filter P (f <$> l)) = length (filter (P ∘ f) l).
Proof.
  induction l as [|x l IH]; [done|]. rewrite fmap_cons.
  destruct (decide (P (f x))).
  - rewrite !filter_cons_True by done. simpl. by rewrite IH.
  - by rewrite !filter_cons_False by done.
Qed.

Section counting.
Variable players : list Player.
Variable T : Z.
Hypothesis T_pos : 0 < T.

Local Abbreviation n := (Z.of_nat (length players)).
Local Abbreviation R := (ceil_div (Z.of_nat (length players)) T).

Lemma board_cells_snake_board :
  board_cells (snake_board players T) = index_cell players <$> snake_indices players T.
Proof.
  unfold board_cells, snake_board, snake_indices.
  induction (seqZ 0 T) as [|t ts IH]; [done|].
  rewrite !fmap_cons, bind_cons, fmap_app. simpl. rewrite IH. f_equal.
  unfold snake_column. by rewrite <- list_fmap_compose.
Qed.

Lemma elem_of_snake_indices i : i ∈ snake_indices players T ↔ 0 ≤ i < R * T.
Proof.
  unfold snake_indices. rewrite list_elem_of_bind. split.
  - intros (t & (r & -> & Hr%elem_of_seqZ)%list_elem_of_fmap & Ht%elem_of_seqZ).
    apply snake_index_range; lia.
  - intros Hi. exists (teamIndex_of T i).
    pose proof (teamIndex_of_range T T_pos i ltac:(lia)).
    split; [|apply elem_of_seqZ; lia].
    apply list_elem_of_fmap. exists (i / T). split.
    + by rewrite snake_index_teamIndex_of by lia.
    + apply elem_of_seqZ. split; [apply Z.div_pos; lia|].
      simpl. apply Z.div_lt_upper_bound; lia.
Qed.

Lemma NoDup_snake_indices : NoDup (snake_indices players T).
Proof.
  unfold snake_indices. apply NoDup_bind; [| |apply NoDup_seqZ].
  - intros t1 t2 i Ht1%elem_of_seqZ Ht2%elem_of_seqZ
      (r1 & -> & Hr1%elem_of_seqZ)%list_elem_of_fmap
      (r2 & Heq & Hr2%elem_of_seqZ)%list_elem_of_fmap.
    pose proof (snake_index_inv T T_pos r1 t1 _
                  ltac:(lia) ltac:(lia) eq_refl) as [_ Ht1'].
    pose proof (snake_index_inv T T_pos r2 t2 _
                  ltac:(lia) ltac:(lia) (eq_sym Heq)) as [_ Ht2'].
    congruence.
  - intros t Ht%elem_of_seqZ. apply NoDup_fmap_2_strong; [|apply NoDup_seqZ].
    intros r1 r2 Hr1%elem_of_seqZ Hr2%elem_of_seqZ Heq.
    pose proof (snake_index_inv T T_pos r1 t _
                  ltac:(lia) ltac:(lia) eq_refl) as [Hr1' _].
    pose proof (snake_index_inv T T_pos r2 t _
                  ltac:(lia) ltac:(lia) (eq_sym Heq)) as [Hr2' _].
    congruence.
Qed.

Lemma snake_indices_perm : snake_indices players T ≡ₚ seqZ 0 (R * T).
Proof.
  apply NoDup_Permutation; [apply NoDup_snake_indices|apply NoDup_seqZ|].
  intros i. rewrite elem_of_snake_indices, elem_of_seqZ. lia.
Qed.

Lemma count_players_snake_board :
  count_players (board_cells (snake_board players T)) = length players.
Proof.
  unfold count_players.
  rewrite board_cells_snake_board, length_filter_fmap, snake_indices_perm.
  pose proof (ceil_div_bounds T T_pos n ltac:(lia)) as Hb.
  replace (R * T) with (n + (R * T - n)) by lia.
  rewrite seqZ_app, filter_app, length_app by lia.
  rewrite filter_all, filter_none, length_seqZ; [simpl; lia| |].
  - apply Forall_seqZ. intros i Hi. simpl. unfold index_cell, array_get.
    destruct (i <? 0); [by intros []|].
    rewrite (proj2 (lookup_ge_None players (Z.to_nat i))) by lia.
    by intros [].
  - apply Forall_seqZ. intros i Hi. simpl. unfold index_cell.
    destruct (lookup_lt_is_Some_2 players (Z.to_nat i) ltac:(lia)) as [p Hp].
    by rewrite (proj2 (array_get_Some players i p)) by (split; [lia|done]).
Qed.

Lemma snake_board_no_undefined :
  Forall (λ c, is_player c = false → c = CNull)
    (board_cells (snake_board players T)).
Proof.
  rewrite board_cells_snake_board. apply Forall_fmap, Forall_forall.
  intros i _. simpl. unfold index_cell. by destruct (array_get players i).
Qed.
End counting.

(** ** The snake draft assigner *)

(** C1, as stated, fails.  With one player and 2^32 teams the allocation
    of the first row, [new Array(numTeams)], throws a [RangeError]: no board
    is returned, so the player sits in no cell. *)
Lemma team_count_limit_counterexample :
  let p := mkPlayer (Num 1) (js "A") (js "RB") in
  array_get [p] 0 = Some p ∧
  generateSnakeDraft [p] 4294967296 = None ∧
  ¬ ∃ board,
      generateSnakeDraft [p] 4294967296 = Some board ∧
      board_at board 0 0 = Some (CPlayer p).
Proof.
  split; [reflexivity|]. split; [reflexivity|].
  intros (board & Hboard & _). discriminate Hboard.
Qed.

(** C1, amended.  Snake placement rule: for a non-empty player list and a
    team count of at least one and below 2^32, the player at zero-based
    input index [i] sits in the board at round [i / numTeams] of the team
    with zero-based index [i mod numTeams] when that round is even and
    [numTeams - 1 - i mod numTeams] when it is odd.  In particular, with
    three teams and seven players, round 0 seats players 1, 2, 3 in teams
    1, 2, 3, round 1 seats players 4, 5, 6 in teams 3, 2, 1, round 2 seats
    player 7 in team 1, and the round 2 cells of teams 2 and 3 are [null]. *)
Theorem snake_placement :
  (∀ (players : list Player) (numTeams i : Z) (p : Player),
     players ≠ [] → 1 ≤ numTeams → numTeams < 2 ^ 32 →
     array_get players i = Some p →
     ∃ board,
       generateSnakeDraft players numTeams = Some board ∧
       let round := i / numTeams in
       let teamIndex :=
         if round mod 2 =? 0 then i mod numTeams
         else numTeams - 1 - i mod numTeams in
       board_at board teamIndex round = Some (CPlayer p))
  ∧ (∀ p1 p2 p3 p4 p5 p6 p7 : Player,
       generateSnakeDraft [p1; p2; p3; p4; p5; p6; p7] 3
       = Some [(js "Team 1", [CPlayer p1; CPlayer p6; CPlayer p7]);
               (js "Team 2", [CPlayer p2; CPlayer p5; CNull]);
               (js "Team 3", [CPlayer p3; CPlayer p4; CNull])]).
Proof.
  split; [|reflexivity].
  intros players numTeams i p Hne HT Hmax Hp.
  exists (snake_board players numTeams).
  split; [apply generateSnakeDraft_snake_board; [done|lia]|].
  apply array_get_Some in Hp as [Hi Hp].
  pose proof (lookup_lt_Some _ _ _ Hp) as Hlt.
  pose proof (round_lt_numRounds numTeams ltac:(lia)
                (Z.of_nat (length players)) i ltac:(lia)) as Hround.
  pose proof (teamIndex_of_range numTeams ltac:(lia) i Hi) as Hteam.
  assert ((if (i / numTeams) mod 2 =? 0 then i mod numTeams
           else numTeams - 1 - i mod numTeams) = teamIndex_of numTeams i)
    as Heq.
  { unfold teamIndex_of.
    rewrite (Z.rem_mod_nonneg i numTeams), (Z.rem_mod_nonneg (i / numTeams) 2)
      by lia. done. }
  simpl. rewrite Heq, board_at_snake_board by lia.
  unfold snake_cell, index_cell. rewrite snake_index_teamIndex_of by lia.
  by rewrite (proj2 (array_get_Some players i p)) by done.
Qed.

Lemma snake_placement_witness :
  ∃ board,
    generateSnakeDraft
      [mkPlayer (Num 1) (js "A") (js "RB"); mkPlayer (Num 2) (js "B") (js "WR");
       mkPlayer (Num 3) (js "C") (js "QB"); mkPlayer (Num 4) (js "D") (js "TE")]
      3 = Some board ∧
    board_at board 2 1 = Some (CPlayer (mkPlayer (Num 4) (js "D") (js "TE"))).
Proof.
  apply (proj1 snake_placement
           [mkPlayer (Num 1) (js "A") (js "RB");
            mkPlayer (Num 2) (js "B") (js "WR");
            mkPlayer (Num 3) (js "C") (js "QB");
            mkPlayer (Num 4) (js "D") (js "TE")]
           3 3 (mkPlayer (Num 4) (js "D") (js "TE"))).
  - discriminate.
  - lia.
  - lia.
  - reflexivity.
Defined.

(** C2, as stated, fails.  With two players and 2^32 teams the assigner
    throws a [RangeError] at [new Array(numTeams)] and returns no board, of
    any shape. *)
Lemma board_shape_counterexample :
  let players :=
    [mkPlayer (Num 1) (js "A") (js "RB"); mkPlayer (Num 2) (js "B") (js "WR")] in
  players ≠ [] ∧ 1 ≤ 4294967296 ∧
  generateSnakeDraft players 4294967296 = None ∧
  ¬ ∃ board, generateSnakeDraft players 4294967296 = Some board.
Proof.
  split; [discriminate|]. split; [lia|]. split; [reflexivity|].
  intros (board & Hboard). discriminate Hboard.
Qed.

(** C2, amended.  Board shape: for a non-empty player list and a team count
    of at least one and below 2^32, the board has one sequence per team,
    every sequence has as many cells as there are rounds, the number of
    rounds being the ceiling of the player count over the team count;
    exactly as many cells as there are players hold a player, and every
    other cell holds [null], none being [undefined]. *)
Theorem board_shape (players : list Player) (numTeams : Z) :
  players ≠ [] → 1 ≤ numTeams → numTeams < 2 ^ 32 →
  ∃ board numRounds,
    generateSnakeDraft players numTeams = Some board ∧
    (numRounds - 1) * numTeams < Z.of_nat (length players)
      ≤ numRounds * numTeams ∧
    Z.of_nat (length board) = numTeams ∧
    Forall (λ col : list cell, Z.of_nat (length col) = numRounds) board.*2 ∧
    count_players (board_cells board) = length players ∧
    Forall (λ c, is_player c = false → c = CNull) (board_cells board).
Proof.
  intros Hne HT Hmax.
  exists (snake_board players numTeams),
    (ceil_div (Z.of_nat (length players)) numTeams).
  pose proof (ceil_div_bounds numTeams ltac:(lia)
                (Z.of_nat (length players)) ltac:(lia)) as Hb.
  split; [apply generateSnakeDraft_snake_board; [done|lia]|].
  split; [lia|].
  split; [unfold snake_board; rewrite length_fmap, length_seqZ; lia|].
  split.
  - unfold snake_board. rewrite <- list_fmap_compose.
    apply Forall_fmap, Forall_forall. intros t _. simpl.
    unfold snake_column. rewrite length_fmap, length_seqZ. lia.
  - split; [apply count_players_snake_board; lia|].
    apply snake_board_no_undefined.
Qed.

Lemma board_shape_witness :
  ∃ board numRounds,
    generateSnakeDraft
      [mkPlayer (Num 1) (js "A") (js "RB"); mkPlayer (Num 2) (js "B") (js "WR");
       mkPlayer (Num 3) (js "C") (js "QB")] 2 = Some board ∧
    (numRounds - 1) * 2 < 3 ≤ numRounds * 2 ∧
    Z.of_nat (length board) = 2 ∧
    Forall (λ col : list cell, Z.of_nat (length col) = numRounds) board.*2 ∧
    count_players (board_cells board) = 3%nat ∧
    Forall (λ c, is_player c = false → c = CNull) (board_cells board).
Proof.
  apply (board_shape
           [mkPlayer (Num 1) (js "A") (js "RB");
            mkPlayer (Num 2) (js "B") (js "WR");
            mkPlayer (Num 3) (js "C") (js "QB")] 2).
  - discriminate.
  - lia.
  - lia.
Defined.

(** C4.  Degenerate inputs are not errors: whatever the team count, the
    empty player list gives the empty board; whatever the player list, a
    team count of zero or less gives the empty board; the assigner returns
    in both cases. *)
Theorem degenerate_inputs :
  (∀ numTeams : Z, generateSnakeDraft [] numTeams = Some [])
  ∧ (∀ (players : list Player) (numTeams : Z),
       numTeams ≤ 0 → generateSnakeDraft players numTeams = Some []).
Proof.
  split; [done|]. intros players numTeams HT. unfold generateSnakeDraft.
  replace (numTeams <=? 0) with true by (symmetry; apply Z.leb_le; lia).
  by rewrite orb_true_r.
Qed.

Lemma degenerate_inputs_witness :
  -2 ≤ 0 ∧
  generateSnakeDraft [mkPlayer (Num 1) (js "A") (js "RB")] (-2) = Some [].
Proof.
  split; [lia|].
  apply (proj2 degenerate_inputs [mkPlayer (Num 1) (js "A") (js "RB")] (-2)).
  lia.
Defined.

(** ** Pick numbers on the rendered grid *)

Lemma overallPick_snake_index (numTeams r t : Z) :
  overallPick numTeams r t = snake_index numTeams r t + 1.
Proof. unfold overallPick, snake_index. by destruct (_ =? _). Qed.

Lemma DraftBoard_cons (boardData : DraftBoardData) (numTeams : Z)
    (pickedPlayers : gset number) teamKey0 teamKeys col :
  obj_keys boardData = teamKey0 :: teamKeys →
  obj_get boardData teamKey0 = Some col →
  DraftBoard boardData numTeams pickedPlayers
  = (λ roundIndex,
       imap (λ teamIndex teamName,
               render_card boardData numTeams pickedPlayers roundIndex
                 teamName (Z.of_nat teamIndex))
         (teamKey0 :: teamKeys)) <$> seqZ 0 (Z.of_nat (length col)).
Proof. intros Hkeys Hcol. unfold DraftBoard. by rewrite Hkeys, Hcol. Qed.

Lemma DraftBoard_snake_board (players : list Player) (numTeams : Z)
    (pickedPlayers : gset number) :
  0 < numTeams →
  DraftBoard (snake_board players numTeams) numTeams pickedPlayers
  = (λ r, (λ t, render_card (snake_board players numTeams) numTeams
                  pickedPlayers r (teamKey t) t) <$> seqZ 0 numTeams)
      <$> seqZ 0 (ceil_div (Z.of_nat (length players)) numTeams).
Proof.
  intros HT.
  set (board := snake_board players numTeams).
  set (R := ceil_div (Z.of_nat (length players)) numTeams).
  assert (obj_keys board = teamKey <$> seqZ 0 numTeams) as Hkeys.
  { unfold obj_keys, board, snake_board. by rewrite <- list_fmap_compose. }
  pose proof (seqZ_cons 0 numTeams HT) as Hcons.
  rewrite Hcons, fmap_cons in Hkeys.
  assert (obj_get board (teamKey 0)
          = Some (snake_column players numTeams R 0)) as Hcol.
  { unfold board, snake_board.
    apply (obj_get_fmap (λ t, snake_column players numTeams R t)).
    apply elem_of_seqZ. lia. }
  rewrite (DraftBoard_cons _ _ _ _ _ _ Hkeys Hcol).
  unfold snake_column at 1. rewrite length_fmap, length_seqZ.
  rewrite <- fmap_cons, <- Hcons.
  pose proof (ceil_div_bounds numTeams HT (Z.of_nat (length players))
                ltac:(lia)) as Hb.
  fold R in Hb. replace (Z.of_nat (Z.to_nat R)) with R by nia.
  apply list_fmap_ext. intros _ r _.
  apply list_eq. intros k.
  rewrite list_lookup_imap, !list_lookup_fmap.
  destruct (seqZ 0 numTeams !! k) as [t|] eqn:Hk; [|done].
  apply lookup_seqZ in Hk as [-> _]. simpl. do 2 f_equal; lia.
Qed.

Lemma grid_card_snake_board (players : list Player) (numTeams : Z)
    (pickedPlayers : gset number) (r t : Z) :
  0 ≤ t < numTeams →
  0 ≤ r < ceil_div (Z.of_nat (length players)) numTeams →
  grid_card (DraftBoard (snake_board players numTeams) numTeams pickedPlayers)
    r t
  = Some (render_card (snake_board players numTeams) numTeams pickedPlayers
            r (teamKey t) t).
Proof.
  intros Ht Hr. rewrite DraftBoard_snake_board by lia. unfold grid_card.
  rewrite array_get_fmap_seqZ by lia. simpl.
  by rewrite array_get_fmap_seqZ by lia.
Qed.

(** C3, as stated, fails, on two counts.  With seven players and 2^32
    teams the assigner throws a [RangeError]: no player is placed in any
    cell and no grid is shown, so there is no cell for the formula to
    number.  And with three teams and seven players the grid, read round by
    round and within a round by physical team column, shows the pick
    numbers 1, 2, 3, 6, 5, 4, 7, which are not increasing: round 1 runs
    from team 3 to team 1. *)
Lemma pick_order_counterexample :
  seven_players ≠ [] ∧ 1 ≤ 4294967296 ∧
  generateSnakeDraft seven_players 4294967296 = None ∧
  ∃ board,
    generateSnakeDraft seven_players 3 = Some board ∧
    shown_picks (DraftBoard board 3 ∅) = [1; 2; 3; 6; 5; 4; 7] ∧
    ¬ strictly_increasing (shown_picks (DraftBoard board 3 ∅)).
Proof.
  split; [discriminate|]. split; [lia|]. split; [reflexivity|].
  eexists. split; [reflexivity|]. split; [reflexivity|].
  intros Hinc. specialize (Hinc 3%nat 4%nat 6 5 ltac:(lia) eq_refl eq_refl).
  lia.
Qed.

(** C3, amended.  For a non-empty player list and a team count of at least
    one and below 2^32, the display formula gives the cell in which the
    player of zero-based input index [i] was placed the pick number
    [i + 1], and the grid shows that player's card there with that number;
    equivalently the pick numbers of the occupied cells, taken in placement
    order (round by round, the team columns ascending in even rounds and
    descending in odd rounds), are 1, 2, ..., playerCount. *)
Theorem overall_pick_consistent (players : list Player) (numTeams : Z)
    (pickedPlayers : gset number) :
  players ≠ [] → 1 ≤ numTeams → numTeams < 2 ^ 32 →
  ∃ board,
    generateSnakeDraft players numTeams = Some board ∧
    (∀ (i : Z) (p : Player),
       array_get players i = Some p →
       let round := i / numTeams in
       let teamIndex :=
         if round mod 2 =? 0 then i mod numTeams
         else numTeams - 1 - i mod numTeams in
       overallPick numTeams round teamIndex = i + 1 ∧
       grid_card (DraftBoard board numTeams pickedPlayers) round teamIndex
       = Some (PlayerCard p (i + 1) round
                 (bool_decide (rank p ∈ pickedPlayers)))) ∧
    (λ i, grid_card (DraftBoard board numTeams pickedPlayers)
            (i / numTeams) (teamIndex_of numTeams i) ≫= card_pick)
      <$> seqZ 0 (Z.of_nat (length players))
    = Some <$> seqZ 1 (Z.of_nat (length players)).
Proof.
  intros Hne HT Hmax.
  exists (snake_board players numTeams).
  split; [apply generateSnakeDraft_snake_board; [done|lia]|].
  assert (∀ i p, array_get players i = Some p →
            overallPick numTeams (i / numTeams) (teamIndex_of numTeams i)
            = i + 1 ∧
            grid_card (DraftBoard (snake_board players numTeams) numTeams
                         pickedPlayers)
              (i / numTeams) (teamIndex_of numTeams i)
            = Some (PlayerCard p (i + 1) (i / numTeams)
                      (bool_decide (rank p ∈ pickedPlayers)))) as Hcell.
  { intros i p Hp. pose proof Hp as [Hi Hp']%array_get_Some.
    pose proof (lookup_lt_Some _ _ _ Hp') as Hlt.
    pose proof (round_lt_numRounds numTeams ltac:(lia)
                  (Z.of_nat (length players)) i ltac:(lia)) as Hround.
    pose proof (teamIndex_of_range numTeams ltac:(lia) i Hi) as Hteam.
    assert (overallPick numTeams (i / numTeams) (teamIndex_of numTeams i)
            = i + 1) as Hpick
      by (rewrite overallPick_snake_index, snake_index_teamIndex_of; lia).
    split; [done|].
    rewrite grid_card_snake_board by lia. unfold render_card, board_player.
    fold (board_at (snake_board players numTeams)
            (teamIndex_of numTeams i) (i / numTeams)).
    rewrite board_at_snake_board by lia. unfold snake_cell, index_cell.
    rewrite snake_index_teamIndex_of, Hp by lia. by rewrite Hpick. }
  split.
  - intros i p Hp. pose proof Hp as [Hi _]%array_get_Some. simpl.
    assert ((if (i / numTeams) mod 2 =? 0 then i mod numTeams
             else numTeams - 1 - i mod numTeams) = teamIndex_of numTeams i)
      as ->; [|by apply Hcell].
    unfold teamIndex_of.
    pose proof (Z.div_pos i numTeams ltac:(lia) ltac:(lia)).
    by rewrite (Z.rem_mod_nonneg i numTeams),
      (Z.rem_mod_nonneg (i / numTeams) 2) by lia.
  - apply list_eq. intros k. rewrite !list_lookup_fmap.
    destruct (decide (k < length players)%nat) as [Hk|Hk].
    + rewrite !lookup_seqZ_lt by lia. simpl.
      destruct (lookup_lt_is_Some_2 players k Hk) as [p Hp].
      rewrite <- array_get_nat in Hp.
      destruct (Hcell _ _ Hp) as [_ Hcard].
      replace (0 + Z.of_nat k) with (Z.of_nat k) by lia.
      rewrite Hcard. simpl. do 2 f_equal. lia.
    + by rewrite !lookup_seqZ_ge by lia.
Qed.

Lemma overall_pick_consistent_witness :
  ∃ board,
    generateSnakeDraft seven_players 3 = Some board ∧
    (∀ (i : Z) (p : Player),
       array_get seven_players i = Some p →
       let round := i / 3 in
       let teamIndex :=
         if round mod 2 =? 0 then i mod 3 else 3 - 1 - i mod 3 in
       overallPick 3 round teamIndex = i + 1 ∧
       grid_card (DraftBoard board 3 no_picks) round teamIndex
       = Some (PlayerCard p (i + 1) round (bool_decide (rank p ∈ no_picks)))) ∧
    (λ i, grid_card (DraftBoard board 3 no_picks) (i / 3) (teamIndex_of 3 i)
            ≫= card_pick)
      <$> seqZ 0 (Z.of_nat (length seven_players))
    = Some <$> seqZ 1 (Z.of_nat (length seven_players)).
Proof.
  apply (overall_pick_consistent seven_players 3 no_picks).
  - discriminate.
  - lia.
  - lia.
Defined.

(** ** The picked set *)

Lemma toggle_self (S : gset number) (r : number) :
  r ∈ handleTogglePlayerPicked r S ↔ r ∉ S.
Proof.
  unfold handleTogglePlayerPicked. case_bool_decide.
  - rewrite elem_of_difference, elem_of_singleton. tauto.
  - rewrite elem_of_union, elem_of_singleton. tauto.
Qed.

Lemma toggle_other (S : gset number) (r r' : number) :
  r' ≠ r → r' ∈ handleTogglePlayerPicked r S ↔ r' ∈ S.
Proof.
  intros Hne. unfold handleTogglePlayerPicked. case_bool_decide.
  - rewrite elem_of_difference, elem_of_singleton. tauto.
  - rewrite elem_of_union, elem_of_singleton. tauto.
Qed.

(** C9.  Toggle: [togglePicked(r)] flips the membership of [r] in the picked
    set (adds it when absent, removes it when present) and leaves every
    other rank as it was; toggling twice restores the set, hence the
    membership of [r]; toggling is not idempotent. *)
Theorem toggle_involution (S : gset number) (r : number) :
  (r ∈ handleTogglePlayerPicked r S ↔ r ∉ S) ∧
  (r ∉ S → handleTogglePlayerPicked r S = S ∪ {[r]}) ∧
  (r ∈ S → handleTogglePlayerPicked r S = S ∖ {[r]}) ∧
  (∀ r', r' ≠ r → (r' ∈ handleTogglePlayerPicked r S ↔ r' ∈ S)) ∧
  handleTogglePlayerPicked r (handleTogglePlayerPicked r S) = S ∧
  (r ∈ handleTogglePlayerPicked r (handleTogglePlayerPicked r S) ↔ r ∈ S) ∧
  handleTogglePlayerPicked r (handleTogglePlayerPicked r S)
  ≠ handleTogglePlayerPicked r S.
Proof.
  pose proof (toggle_self S r) as Hflip.
  assert (handleTogglePlayerPicked r (handleTogglePlayerPicked r S) = S)
    as Htwice.
  { apply set_eq. intros x. destruct (decide (x = r)) as [->|Hne].
    - rewrite !toggle_self. destruct (decide (r ∈ S)); tauto.
    - by rewrite !toggle_other. }
  split; [done|].
  split; [intros Hr; unfold handleTogglePlayerPicked;
          by rewrite bool_decide_eq_false_2|].
  split; [intros Hr; unfold handleTogglePlayerPicked;
          by rewrite bool_decide_eq_true_2|].
  split; [intros r'; apply toggle_other|].
  split; [done|]. split; [by rewrite Htwice|].
  rewrite Htwice. intros Heq. rewrite <- Heq in Hflip. tauto.
Qed.

Lemma toggle_involution_witness :
  Num 7 ∈ handleTogglePlayerPicked (Num 4) {[Num 7]} ↔ Num 7 ∈ ({[Num 7]} : gset number).
Proof.
  apply (toggle_involution {[Num 7]} (Num 4)). discriminate.
Defined.

(** ** Whitespace, trimming and splitting *)

Lemma drop_ws_starts (s : jsstring) : starts_ws (drop_ws s) = false.
Proof.
  induction s as [|c s IH]; [done|]. simpl.
  destruct (is_ws c) eqn:E; [done|]. simpl. by rewrite E.
Qed.

Lemma drop_ws_id (s : jsstring) : starts_ws s = false → drop_ws s = s.
Proof. destruct s as [|c s]; [done|]. simpl. by intros ->. Qed.

Lemma drop_ws_suffix (s : jsstring) : ∃ pre, s = pre ++ drop_ws s.
Proof.
  induction s as [|c s [pre IH]]; [by exists []|]. simpl.
  destruct (is_ws c); [|by exists []].
  exists (c :: pre). simpl. by rewrite <- IH.
Qed.

Lemma ends_ws_snoc (s : jsstring) (c : char) : ends_ws (s ++ [c]) = is_ws c.
Proof.
  induction s as [|c' s IH]; [done|].
  simpl. by destruct (s ++ [c]) eqn:E; [destruct s|].
Qed.

Lemma ends_ws_rev (s : jsstring) : ends_ws (rev s) = starts_ws s.
Proof. destruct s as [|c s]; [done|]. simpl. apply ends_ws_snoc. Qed.

Lemma starts_ws_rev (s : jsstring) : starts_ws (rev s) = ends_ws s.
Proof. by rewrite <- ends_ws_rev, rev_involutive. Qed.

Lemma starts_ws_app (s u : jsstring) :
  s ≠ [] → starts_ws (s ++ u) = starts_ws s.
Proof. by destruct s. Qed.

Lemma ends_ws_app (s u : jsstring) : u ≠ [] → ends_ws (s ++ u) = ends_ws u.
Proof.
  intros Hu. induction s as [|c s IH]; [done|].
  simpl. by destruct (s ++ u) eqn:E; [apply app_eq_nil in E as [_ ?]|].
Qed.

Lemma trim_ends (s : jsstring) : ends_ws (trim s) = false.
Proof. unfold trim. rewrite ends_ws_rev. apply drop_ws_starts. Qed.

Lemma trim_starts (s : jsstring) : starts_ws (trim s) = false.
Proof.
  unfold trim. pose proof (drop_ws_starts s) as Hs.
  destruct (drop_ws_suffix (rev (drop_ws s))) as [pre Hpre].
  apply (f_equal (@rev _)) in Hpre.
  rewrite rev_involutive, rev_app_distr in Hpre.
  destruct (rev (drop_ws (rev (drop_ws s)))) as [|c u] eqn:E; [done|].
  rewrite Hpre in Hs. done.
Qed.

Lemma trim_id (s : jsstring) :
  starts_ws s = false → ends_ws s = false → trim s = s.
Proof.
  intros Hs He. unfold trim. rewrite (drop_ws_id s Hs).
  rewrite drop_ws_id by by rewrite starts_ws_rev.
  apply rev_involutive.
Qed.

Lemma split_ws_no_ws (s : jsstring) :
  Forall (Forall (λ c, is_ws c = false)) (split_ws s).
Proof.
  induction s as [|c s IH]; simpl; [by repeat constructor|].
  destruct (is_ws c) eqn:Hc.
  - destruct (starts_ws s); [done|]. by constructor.
  - destruct (split_ws s) as [|piece pieces]; simpl.
    + by repeat constructor.
    + inversion_clear IH. constructor; [by constructor|done].
Qed.

Lemma split_ws_cons (c : char) (s : jsstring) :
  split_ws (c :: s)
  = if is_ws c then if starts_ws s then split_ws s else [] :: split_ws s
    else cons_head c (split_ws s).
Proof. done. Qed.

(** The pieces of a string that does not end in whitespace: all but the
    first are non-empty, and the first is empty exactly when the string
    starts with whitespace. *)
Lemma split_ws_pieces (s : jsstring) :
  s ≠ [] → ends_ws s = false →
  ∃ piece pieces,
    split_ws s = piece :: pieces ∧ Forall (λ t, t ≠ []) pieces ∧
    (starts_ws s = false → piece ≠ []) ∧ (starts_ws s = true → piece = []).
Proof.
  induction s as [|c s IH]; [done|]. intros _ Hend.
  destruct s as [|c' s'].
  - simpl in *. rewrite Hend. simpl. by exists [c], [].
  - destruct IH as (piece & pieces & Hsplit & Hne & Hfirst & Hempty);
      [done|done|].
    rewrite split_ws_cons, Hsplit.
    change (starts_ws (c :: c' :: s')) with (is_ws c).
    destruct (is_ws c) eqn:Hc.
    + destruct (starts_ws (c' :: s')) eqn:Hs.
      * exists piece, pieces. auto.
      * exists [], (piece :: pieces). split_and!; auto.
    + exists (c :: piece), pieces. split_and!; auto; done.
Qed.

Lemma split_ws_trimmed (s : jsstring) :
  s ≠ [] → starts_ws s = false → ends_ws s = false →
  Forall token (split_ws s).
Proof.
  intros Hne Hs He.
  destruct (split_ws_pieces s Hne He) as (piece & pieces & Hsplit & Hrest & Hfirst & _).
  pose proof (split_ws_no_ws s) as Hws. rewrite Hsplit in *.
  apply Forall_cons in Hws as [Hws1 Hws].
  constructor; [split; auto|].
  apply Forall_forall. intros t Ht. split.
  - by apply (proj1 (Forall_forall _ _) Hrest).
  - by apply (proj1 (Forall_forall _ _) Hws).
Qed.

(** The tokens of a non-blank line. *)
Lemma split_ws_trim (line : jsstring) :
  trim line ≠ [] → Forall token (split_ws (trim line)).
Proof.
  intros Hne. apply split_ws_trimmed; auto using trim_starts, trim_ends.
Qed.

Lemma split_ws_token (t : jsstring) :
  Forall (λ c, is_ws c = false) t → split_ws t = [t].
Proof.
  induction 1 as [|c t Hc _ IH]; [done|]. simpl. by rewrite Hc, IH.
Qed.

Lemma split_ws_app (t u : jsstring) (sp : char) :
  Forall (λ c, is_ws c = false) t → is_ws sp = true → starts_ws u = false →
  split_ws (t ++ sp :: u) = t :: split_ws u.
Proof.
  intros Ht Hsp Hu. induction Ht as [|c t Hc _ IH]; simpl.
  - by rewrite Hsp, Hu.
  - by rewrite Hc, IH.
Qed.

Lemma token_starts (t : jsstring) : token t → starts_ws t = false.
Proof. intros [Hne Hws]. destruct t; [done|]. by inversion Hws. Qed.

Lemma token_ends (t : jsstring) : token t → ends_ws t = false.
Proof.
  intros [Hne Hws]. rewrite <- starts_ws_rev.
  apply token_starts. split; [|by apply Forall_rev].
  intros Hnil. apply Hne. by rewrite <- (rev_involutive t), Hnil.
Qed.

Lemma join_cons (sep t : jsstring) (ts : list jsstring) :
  ts ≠ [] → join sep (t :: ts) = t ++ sep ++ join sep ts.
Proof. by destruct ts. Qed.

Lemma join_snoc (sep t : jsstring) (ts : list jsstring) :
  ts ≠ [] → join sep (ts ++ [t]) = join sep ts ++ sep ++ t.
Proof.
  induction ts as [|t' ts IH]; [done|]. intros _.
  destruct ts as [|t'' ts]; [done|].
  change ((t' :: t'' :: ts) ++ [t]) with (t' :: ((t'' :: ts) ++ [t])).
  rewrite !join_cons by done. rewrite IH by done.
  by rewrite <- !app_assoc.
Qed.

Lemma join_tokens_nonempty (ts : list jsstring) :
  ts ≠ [] → Forall token ts → join (js " ") ts ≠ [].
Proof.
  intros Hne Hts. destruct ts as [|t ts]; [done|].
  apply Forall_cons in Hts as [[Ht _] _].
  destruct ts; simpl; [done|]. intros [? _]%app_eq_nil. done.
Qed.

Lemma join_tokens_starts (ts : list jsstring) :
  Forall token ts → starts_ws (join (js " ") ts) = false.
Proof.
  intros Hts. destruct ts as [|t ts]; [done|].
  apply Forall_cons in Hts as [Ht _].
  destruct ts; simpl; [by apply token_starts|].
  rewrite starts_ws_app by apply Ht. by apply token_starts.
Qed.

Lemma join_tokens_ends (ts : list jsstring) :
  Forall token ts → ends_ws (join (js " ") ts) = false.
Proof.
  induction 1 as [|t ts Ht Hts IH]; [done|].
  destruct ts as [|t' ts]; [by apply token_ends|].
  rewrite join_cons by done.
  rewrite app_assoc, ends_ws_app; [done|].
  apply join_tokens_nonempty; [done|]. by inversion Hts.
Qed.

(** Splitting undoes joining with single spaces. *)
Lemma split_ws_join (ts : list jsstring) :
  ts ≠ [] → Forall token ts → split_ws (join (js " ") ts) = ts.
Proof.
  intros Hne Hts. induction Hts as [|t ts Ht Hts IH]; [done|].
  destruct ts as [|t' ts]; [apply split_ws_token, Ht|].
  rewrite join_cons by done.
  change (js " " ++ join (js " ") (t' :: ts))
    with (32%N :: join (js " ") (t' :: ts)).
  rewrite split_ws_app; [by rewrite IH|apply Ht|done|].
  by apply join_tokens_starts.
Qed.

(** ** Ranks read back from their numerals *)

Lemma take_digits_digits (s : jsstring) :
  Forall (λ c, is_digit c = true) (take_digits s).
Proof.
  induction s as [|c s IH]; simpl; [constructor|].
  destruct (is_digit c) eqn:Hc; by constructor.
Qed.

Lemma digits_value_nonneg (ds : jsstring) :
  Forall (λ c, is_digit c = true) ds → 0 ≤ digits_value ds.
Proof.
  induction ds as [|c ds IH] using rev_ind; intros Hds; [done|].
  apply Forall_app in Hds as [Hds Hc]. apply Forall_inv in Hc.
  rewrite digits_value_snoc. specialize (IH Hds).
  unfold is_digit in Hc. apply andb_true_iff in Hc as [H1 _].
  apply N.leb_le in H1. lia.
Qed.

(** [parseInt] gives [NaN] or the double of a signed numeral. *)
Lemma parseInt_cases (s : jsstring) :
  parseInt s = NaN
  ∨ ∃ negative m, 0 ≤ m ∧ parseInt s = to_number negative m.
Proof.
  unfold parseInt.
  destruct (match drop_ws s with
            | [] => (false, drop_ws s)
            | c :: s' =>
                if decide (c = minus_sign) then (true, s')
                else if decide (c = plus_sign) then (false, s')
                else (false, drop_ws s)
            end) as [negative s'].
  pose proof (take_digits_digits s') as Hds.
  destruct (take_digits s') as [|c ds] eqn:E; [by left|right].
  exists negative, (digits_value (c :: ds)).
  split; [by apply digits_value_nonneg|done].
Qed.

Lemma to_number_opposite (y x : Z) :
  to_number false y = Num x → to_number true y = Num (- x).
Proof.
  intros [Hlt ->]%to_number_Num. unfold to_number.
  by destruct (Z.leb_spec (2 ^ 1024) (float_round y)); [lia|].
Qed.

Lemma shortest_at_reads (x k y : Z) :
  shortest_at x k = Some y → 0 ≤ x → to_number false y = Num x ∧ 0 ≤ y.
Proof.
  unfold shortest_at. intros Hy Hx.
  set (p := 10 ^ (Z.of_nat (length (decimal x)) - k)) in *.
  assert (0 ≤ p) as Hp by (apply Z.pow_nonneg; lia).
  assert (0 ≤ x / p * p) as Hlo.
  { destruct (decide (p = 0)) as [->|]; [lia|].
    apply Z.mul_nonneg_nonneg; [|done]. apply Z.div_pos; lia. }
  unfold reads_as in Hy.
  repeat case_bool_decide; repeat case_match; simplify_eq; split; (done || lia).
Qed.

Lemma shortest_reads (x : Z) :
  0 ≤ x → to_number false x = Num x →
  to_number false (shortest x) = Num x ∧ 0 ≤ shortest x.
Proof.
  intros Hx Hrep. unfold shortest.
  destruct (head _) as [y|] eqn:Hhead; [|done]. simpl.
  apply head_Some_elem_of, list_elem_of_omap in Hhead as (k & _ & Hk).
  by eapply shortest_at_reads.
Qed.

Lemma magnitude_reads (x : Z) :
  0 ≤ x → x < 10 ^ 21 → to_number false x = Num x →
  ∃ y, 0 ≤ y ∧ magnitude_to_string x = decimal y ∧
       to_number false y = Num x.
Proof.
  intros Hx Hlt Hrep. unfold magnitude_to_string.
  destruct (Z.ltb_spec x (2 ^ 53)); [by exists x|].
  destruct (Z.ltb_spec x (10 ^ 21)); [|lia].
  destruct (shortest_reads x Hx Hrep) as [Hread Hy].
  by exists (shortest x).
Qed.

Lemma digits_token (ds : jsstring) :
  ds ≠ [] → Forall (λ c, is_digit c = true) ds → token ds.
Proof.
  intros Hne Hds. split; [done|].
  eapply Forall_impl; [done|]. apply is_digit_not_ws.
Qed.

(** The numeral of a plain rank is one token, and [parseInt] reads the rank
    back from it. *)
Lemma plain_reads_back (negative : bool) (m z : Z) :
  0 ≤ m → to_number negative m = Num z → Z.abs z < 10 ^ 21 →
  token (number_to_string (Num z)) ∧
  parseInt (number_to_string (Num z)) = Num z.
Proof.
  intros Hm Hz Hplain.
  pose proof (to_number_idem negative m z Hm Hz) as Hrep.
  unfold number_to_string. destruct (Z.ltb_spec z 0) as [Hneg|Hpos].
  - apply to_number_Num in Hrep as [Hfin Heq].
    assert (to_number false (Z.abs z) = Num (Z.abs z)) as Hrep'.
    { unfold to_number.
      destruct (Z.leb_spec (2 ^ 1024) (float_round (Z.abs z))); [lia|].
      f_equal. lia. }
    replace (- z) with (Z.abs z) by lia.
    destruct (magnitude_reads (Z.abs z) ltac:(lia) Hplain Hrep')
      as (y & Hy & -> & Hread).
    split.
    + split; [done|]. constructor; [done|].
      eapply Forall_impl; [apply decimal_digits|]. apply is_digit_not_ws.
    + rewrite parseInt_minus_digits
        by auto using decimal_nonempty, decimal_digits.
      rewrite decimal_value by done.
      rewrite (to_number_opposite _ _ Hread). f_equal. lia.
  - replace (Z.abs z) with z in * by lia.
    destruct (magnitude_reads z Hpos Hplain Hrep) as (y & Hy & -> & Hread).
    split.
    + apply digits_token; auto using decimal_nonempty, decimal_digits.
    + rewrite parseInt_digits by auto using decimal_nonempty, decimal_digits.
      by rewrite decimal_value.
Qed.

(** ** One line of the parser *)

Lemma parts_decompose (parts : list jsstring) :
  (3 ≤ length parts)%nat →
  ∃ first mids lst, parts = first :: mids ++ [lst] ∧ mids ≠ [].
Proof.
  intros Hlen. destruct parts as [|first rest]; [simpl in Hlen; lia|].
  destruct rest as [|x rest _] using rev_ind; [simpl in Hlen; lia|].
  exists first, rest, x. split; [done|].
  intros ->. simpl in Hlen. lia.
Qed.

Lemma slice_middle_parts (first lst : jsstring) (mids : list jsstring) :
  slice_middle (first :: mids ++ [lst]) = mids.
Proof.
  unfold slice_middle. simpl. rewrite length_app. simpl.
  replace (length mids + 1 - 0)%nat with (S (length mids)) by lia.
  simpl. rewrite take_app_length'; [done|lia].
Qed.

Lemma last_parts (first lst : jsstring) (mids : list jsstring) :
  last (first :: mids ++ [lst]) = Some lst.
Proof. by rewrite app_comm_cons, last_snoc. Qed.

(** What a line of three tokens or more comes to. *)
Lemma parse_line_parts (line first lst : jsstring) (mids : list jsstring) :
  trim line ≠ [] →
  split_ws (trim line) = first :: mids ++ [lst] → mids ≠ [] →
  parse_line line
  = check_fields line (parseInt first) (join (js " ") mids) lst.
Proof.
  intros Hne Hsplit Hmids. unfold parse_line.
  destruct (trim line) eqn:E; [done|]. cbn [falsy]. rewrite Hsplit.
  replace (length (first :: mids ++ [lst]) <? 3)%nat with false.
  - by rewrite slice_middle_parts, last_parts.
  - symmetry. apply Nat.ltb_ge. simpl. rewrite length_app. simpl.
    destruct mids; [done|]. simpl. lia.
Qed.

Lemma parse_line_Return (line : jsstring) (r : ParseResult) :
  parse_line line = Return r →
  r = mkResult [] (Some (malformed_msg line))
  ∨ r = mkResult [] (Some (could_not_parse_msg line)).
Proof.
  unfold parse_line, check_fields.
  destruct (falsy _); [done|]. destruct (_ <? _)%nat.
  - intros [= <-]. by left.
  - destruct (invalid_fields _ _ _); [|done]. intros [= <-]. by right.
Qed.

Lemma parse_line_Push (line : jsstring) (p : Player) :
  parse_line line = Push p → well_formed p.
Proof.
  intros Hpush. unfold parse_line in Hpush.
  destruct (trim line) as [|c s] eqn:E; [done|]. cbn [falsy] in Hpush.
  pose proof (split_ws_trim line) as Htok. rewrite E in Htok.
  specialize (Htok ltac:(done)).
  destruct (Nat.ltb_spec (length (split_ws (c :: s))) 3); [done|].
  destruct (parts_decompose _ ltac:(done)) as (first & mids & lst & Hparts & Hmids).
  rewrite Hparts in *. rewrite slice_middle_parts, last_parts in Hpush.
  cbn [lookup list_lookup] in Hpush. cbv [default from_option id] in Hpush.
  unfold check_fields in Hpush.
  destruct (invalid_fields _ _ _) eqn:Hinv; [done|].
  injection Hpush as <-.
  apply Forall_cons in Htok as [_ Htok].
  apply Forall_app in Htok as [Htok Hlst].
  apply (proj1 (Forall_singleton _ _)) in Hlst.
  unfold invalid_fields in Hinv.
  destruct (parseInt_cases first) as [Hnan|(negative & m & Hm & Hrank)].
  { by rewrite Hnan in Hinv. }
  exists negative, m, mids. by split_and!.
Qed.

Lemma well_formed_not_NaN (p : Player) : well_formed p → rank p ≠ NaN.
Proof.
  intros (negative & m & mids & _ & -> & _). apply to_number_not_NaN.
Qed.

Lemma serialize_join (p : Player) (mids : list jsstring) :
  mids ≠ [] → name p = join (js " ") mids →
  serialize p
  = join (js " ") (number_to_string (rank p) :: mids ++ [position p]).
Proof.
  intros Hmids Hname. unfold serialize. rewrite Hname.
  rewrite join_cons by (by destruct mids). by rewrite join_snoc.
Qed.

Lemma serialize_tokens (p : Player) :
  well_formed p → plain (rank p) →
  ∃ first mids,
    serialize p = join (js " ") (first :: mids ++ [position p]) ∧
    mids ≠ [] ∧ Forall token (first :: mids ++ [position p]) ∧
    parseInt first = rank p ∧ name p = join (js " ") mids.
Proof.
  intros (negative & m & mids & Hm & Hrank & Hmids & Htok & Hname & Hpos)
    Hplain.
  exists (number_to_string (rank p)), mids.
  split; [by apply serialize_join|]. split; [done|].
  destruct (rank p) as [|z|] eqn:Hz; [done| |done]. simpl in Hplain.
  destruct (plain_reads_back negative m z Hm ltac:(done) Hplain)
    as [Htoken Hread].
  split; [|done].
  constructor; [done|].
  apply Forall_app. split; [done|by constructor].
Qed.

(** A well-formed record of plain rank is read back from its line. *)
Lemma parse_line_serialize (p : Player) :
  well_formed p → plain (rank p) → parse_line (serialize p) = Push p.
Proof.
  intros Hwf Hplain.
  pose proof Hwf
    as (negative & m & mids' & Hm & Hrank & Hmids' & Hmtok & Hname' & Hpos).
  pose proof (well_formed_not_NaN p Hwf) as Hnan.
  destruct (serialize_tokens p Hwf Hplain)
    as (first & mids & Hser & Hmids & Htok & Hfirst & Hname).
  assert (trim (serialize p) = serialize p) as Htrim.
  { rewrite Hser. apply trim_id;
      [by apply join_tokens_starts|by apply join_tokens_ends]. }
  assert (serialize p ≠ []) as Hne
    by (rewrite Hser; by apply join_tokens_nonempty).
  rewrite (parse_line_parts _ first (position p) mids); [| | |done].
  - unfold check_fields, invalid_fields. rewrite Hfirst, <- Hname.
    assert (falsy (name p) = false) as ->.
    { rewrite Hname'. pose proof (join_tokens_nonempty mids' Hmids' Hmtok).
      by destruct (join (js " ") mids'). }
    assert (falsy (position p) = false) as ->
      by (destruct Hpos as [? _]; by destruct (position p)).
    assert (isNaN (rank p) = false) as -> by by destruct (rank p).
    simpl. by destruct p.
  - by rewrite Htrim.
  - rewrite Htrim, Hser. by apply split_ws_join.
Qed.

(** ** The loop over the lines *)

Lemma parse_lines_app (pre : list jsstring) :
  ∀ (rest : list jsstring) (acc : list Player),
    Forall (λ l, ∀ r, parse_line l ≠ Return r) pre →
    ∃ ps, Forall well_formed ps ∧
          parse_lines (pre ++ rest) acc = parse_lines rest (acc ++ ps).
Proof.
  induction pre as [|l pre IH]; intros rest acc Hpre.
  - exists []. by rewrite app_nil_r.
  - apply Forall_cons in Hpre as [Hl Hpre]. simpl.
    destruct (parse_line l) as [|r|p] eqn:E.
    + by apply IH.
    + by destruct (Hl r).
    + destruct (IH rest (acc ++ [p]) Hpre) as (ps & Hwf & Heq).
      exists (p :: ps). split.
      * constructor; [by apply parse_line_Push in E|done].
      * by rewrite Heq, <- app_assoc.
Qed.

(** A parse without error: no line returned early, and the records are
    those the lines pushed. *)
Lemma parse_lines_ok (lines : list jsstring) :
  ∀ acc, error (parse_lines lines acc) = None →
         ∃ ps, Forall well_formed ps ∧
               parse_lines lines acc = mkResult (acc ++ ps) None.
Proof.
  induction lines as [|l lines IH]; intros acc; simpl.
  - intros _. exists []. by rewrite app_nil_r.
  - destruct (parse_line l) as [|r|p] eqn:E.
    + apply IH.
    + by destruct (parse_line_Return _ _ E) as [-> | ->].
    + intros Herr. destruct (IH _ Herr) as (ps & Hwf & Heq).
      exists (p :: ps). split.
      * constructor; [by apply parse_line_Push in E|done].
      * by rewrite Heq, <- app_assoc.
Qed.

Lemma parse_lines_serialize (ps : list Player) :
  ∀ acc, Forall well_formed ps → Forall (λ p, plain (rank p)) ps →
         parse_lines (serialize <$> ps) acc = mkResult (acc ++ ps) None.
Proof.
  induction ps as [|p ps IH]; intros acc Hwf Hplain; simpl.
  - by rewrite app_nil_r.
  - apply Forall_cons in Hwf as [Hp Hwf].
    apply Forall_cons in Hplain as [Hpp Hplain].
    by rewrite parse_line_serialize, IH, <- app_assoc.
Qed.

(** ** Lines of a text *)

Lemma split_nl_cons (c : char) (s : jsstring) :
  split_nl (c :: s)
  = if decide (c = newline) then [] :: split_nl s
    else cons_head c (split_nl s).
Proof. done. Qed.

Lemma split_nl_line (l : jsstring) :
  Forall (λ c, c ≠ newline) l → split_nl l = [l].
Proof.
  induction 1 as [|c l Hc _ IH]; [done|].
  by rewrite split_nl_cons, decide_False, IH.
Qed.

Lemma split_nl_app (l u : jsstring) :
  Forall (λ c, c ≠ newline) l →
  split_nl (l ++ newline :: u) = l :: split_nl u.
Proof.
  induction 1 as [|c l Hc _ IH].
  - by rewrite app_nil_l, split_nl_cons, decide_True.
  - by rewrite <- app_comm_cons, split_nl_cons, decide_False, IH.
Qed.

Lemma split_nl_join (lines : list jsstring) :
  lines ≠ [] → Forall (Forall (λ c, c ≠ newline)) lines →
  split_nl (join [newline] lines) = lines.
Proof.
  intros Hne Hlines. induction Hlines as [|l lines Hl Hlines IH]; [done|].
  destruct lines as [|l' lines]; [by apply split_nl_line|].
  rewrite join_cons by done.
  change ([newline] ++ join [newline] (l' :: lines))
    with (newline :: join [newline] (l' :: lines)).
  rewrite split_nl_app by done. by rewrite IH.
Qed.

Lemma not_ws_not_newline (c : char) : is_ws c = false → c ≠ newline.
Proof. by intros Hc ->. Qed.

Lemma join_tokens_no_newline (ts : list jsstring) :
  Forall token ts → Forall (λ c, c ≠ newline) (join (js " ") ts).
Proof.
  induction 1 as [|t ts [_ Ht] Hts IH]; [done|].
  assert (Forall (λ c, c ≠ newline) t) as Ht'
    by (eapply Forall_impl; [done|apply not_ws_not_newline]).
  destruct ts as [|t' ts]; [done|].
  rewrite join_cons by done. apply Forall_app. split; [done|].
  apply Forall_app. split; [|done]. by repeat constructor.
Qed.

Section serialized_text.
Variable ps : list Player.
Hypothesis ps_wf : Forall well_formed ps.
Hypothesis ps_plain : Forall (λ p, plain (rank p)) ps.

Lemma serialized_lines :
  Forall (λ l, l ≠ [] ∧ starts_ws l = false ∧ ends_ws l = false ∧
               Forall (λ c, c ≠ newline) l) (serialize <$> ps).
Proof.
  apply Forall_fmap.
  pose proof (proj2 (Forall_and _ _) (conj ps_wf ps_plain)) as Hboth.
  eapply Forall_impl; [exact Hboth|].
  intros p [Hp Hpp]. simpl.
  destruct (serialize_tokens p Hp Hpp)
    as (first & mids & -> & Hmids & Htok & _).
  split_and!.
  - by apply join_tokens_nonempty.
  - by apply join_tokens_starts.
  - by apply join_tokens_ends.
  - by apply join_tokens_no_newline.
Qed.
End serialized_text.

Lemma join_lines_shape (lines : list jsstring) :
  lines ≠ [] →
  Forall (λ l, l ≠ [] ∧ starts_ws l = false ∧ ends_ws l = false ∧
               Forall (λ c, c ≠ newline) l) lines →
  join [newline] lines ≠ [] ∧
  starts_ws (join [newline] lines) = false ∧
  ends_ws (join [newline] lines) = false.
Proof.
  intros Hne Hlines.
  induction Hlines as [|l lines (Hl & Hs & He & _) Hlines IH]; [done|].
  destruct lines as [|l' lines]; [done|].
  destruct (IH ltac:(done)) as (IH1 & IH2 & IH3).
  rewrite join_cons by done. split_and!.
  - by intros [? _]%app_eq_nil.
  - by rewrite starts_ws_app.
  - rewrite app_assoc, ends_ws_app; done.
Qed.

Lemma messages_differ (line line' : jsstring) :
  could_not_parse_msg line ≠ malformed_msg line'.
Proof. unfold could_not_parse_msg, malformed_msg. simpl. discriminate. Qed.

Lemma check_fields_invalid (line : jsstring) (rank : number)
    (name position : jsstring) :
  invalid_fields rank name position = true →
  check_fields line rank name position
  = Return (mkResult [] (Some (could_not_parse_msg line))).
Proof. unfold check_fields. by intros ->. Qed.

(** The first line that returns decides the result. *)
Lemma parsePlayerText_first_return (text line : jsstring)
    (pre post : list jsstring) (r : ParseResult) :
  split_nl (trim text) = pre ++ line :: post →
  Forall (λ l, ∀ r, parse_line l ≠ Return r) pre →
  parse_line line = Return r →
  parsePlayerText text = r.
Proof.
  intros Hlines Hpre Hline. unfold parsePlayerText. rewrite Hlines.
  destruct (parse_lines_app pre (line :: post) [] Hpre) as (ps & _ & ->).
  simpl. by rewrite Hline.
Qed.

Lemma parse_lines_return (pre : list jsstring) :
  ∀ (line : jsstring) (post : list jsstring) (r : ParseResult)
    (acc : list Player),
    parse_line line = Return r →
    players (parse_lines (pre ++ line :: post) acc) = [] ∧
    error (parse_lines (pre ++ line :: post) acc) ≠ None.
Proof.
  induction pre as [|l pre IH]; intros line post r acc Hline; simpl.
  - rewrite Hline. by destruct (parse_line_Return _ _ Hline) as [-> | ->].
  - destruct (parse_line l) as [|r'|p] eqn:E; [by eapply IH| |by eapply IH].
    by destruct (parse_line_Return _ _ E) as [-> | ->].
Qed.

Lemma parse_line_malformed (line : jsstring) :
  trim line ≠ [] → (length (split_ws (trim line)) < 3)%nat →
  parse_line line = Return (mkResult [] (Some (malformed_msg line))).
Proof.
  intros Hne Hlen. unfold parse_line.
  destruct (trim line); [done|]. cbn [falsy].
  by replace (_ <? _)%nat with true by (symmetry; by apply Nat.ltb_lt).
Qed.

(** The could-not-parse message is only ever that of a rank that is no
    number. *)
Lemma could_not_parse_is_NaN (l : jsstring) :
  parse_line l = Return (mkResult [] (Some (could_not_parse_msg l))) →
  trim l ≠ [] ∧ (3 ≤ length (split_ws (trim l)))%nat ∧
  parseInt (default [] (split_ws (trim l) !! 0%nat)) = NaN.
Proof.
  intros Hret.
  destruct (decide (trim l = [])) as [Hb|Hb].
  { unfold parse_line in Hret. by rewrite Hb in Hret. }
  split; [done|].
  destruct (Nat.ltb_spec (length (split_ws (trim l))) 3) as [Hlt|Hge].
  { rewrite parse_line_malformed in Hret by done.
    assert (could_not_parse_msg l = malformed_msg l) as Hmsg by congruence.
    by apply messages_differ in Hmsg. }
  split; [done|].
  destruct (parts_decompose _ Hge) as (first & mids & lst & Hparts & Hmids).
  rewrite (parse_line_parts l first lst mids Hb Hparts Hmids) in Hret.
  rewrite Hparts. simpl.
  pose proof (split_ws_trim l Hb) as Htok. rewrite Hparts in Htok.
  apply Forall_cons in Htok as [_ Htok].
  apply Forall_app in Htok as [Hmtok Hlst].
  apply (proj1 (Forall_singleton _ _)) in Hlst.
  pose proof (join_tokens_nonempty mids Hmids Hmtok) as Hname.
  unfold check_fields, invalid_fields in Hret.
  destruct (parseInt first); [done| |];
    destruct (join (js " ") mids); try done;
    destruct Hlst as [Hl _]; by destruct lst.
Qed.

(** ** The text parser *)

(** C5, as stated, fails.  The text whose lines are [x A RB] and [1 A] has
    a non-blank line of two tokens, [1 A]; the parse stops at the line
    before it and reports that one, with the other message. *)
Lemma malformed_line_counterexample :
  js "1 A" ∈ split_nl (trim demo_text) ∧
  trim (js "1 A") ≠ [] ∧
  (length (split_ws (trim (js "1 A"))) < 3)%nat ∧
  parsePlayerText demo_text
  = mkResult [] (Some (could_not_parse_msg (js "x A RB"))) ∧
  error (parsePlayerText demo_text) ≠ Some (malformed_msg (js "1 A")).
Proof.
  split; [vm_compute; apply list_elem_of_further, list_elem_of_here|].
  split; [done|]. split; [vm_compute; lia|]. split; [reflexivity|].
  vm_compute. discriminate.
Qed.

(** C5, amended.  A text with a non-blank line of fewer than three tokens
    fails to parse and returns no players, whatever the other lines are;
    when no earlier line makes the parser return, the error is the
    malformed-line message quoting that line as it stands in the trimmed
    text. *)
Theorem malformed_line_fails (text line : jsstring)
    (pre post : list jsstring) :
  split_nl (trim text) = pre ++ line :: post →
  trim line ≠ [] →
  (length (split_ws (trim line)) < 3)%nat →
  players (parsePlayerText text) = [] ∧
  error (parsePlayerText text) ≠ None ∧
  (Forall (λ l, ∀ r, parse_line l ≠ Return r) pre →
   parsePlayerText text = mkResult [] (Some (malformed_msg line))).
Proof.
  intros Hlines Hne Hlen.
  pose proof (parse_line_malformed line Hne Hlen) as Hline.
  unfold parsePlayerText at 1 2. rewrite Hlines.
  destruct (parse_lines_return pre line post _ [] Hline) as [Hps Herr].
  split; [done|]. split; [done|].
  intros Hpre. by eapply parsePlayerText_first_return.
Qed.

Lemma malformed_line_fails_witness :
  players (parsePlayerText (js "1 A RB" ++ [newline] ++ js "2 B")) = [] ∧
  error (parsePlayerText (js "1 A RB" ++ [newline] ++ js "2 B")) ≠ None ∧
  parsePlayerText (js "1 A RB" ++ [newline] ++ js "2 B")
  = mkResult [] (Some (malformed_msg (js "2 B"))).
Proof.
  destruct (malformed_line_fails (js "1 A RB" ++ [newline] ++ js "2 B")
              (js "2 B") [js "1 A RB"] []) as (Hplayers & Herror & Hfirst).
  - reflexivity.
  - discriminate.
  - vm_compute. lia.
  - split; [exact Hplayers|]. split; [exact Herror|]. apply Hfirst.
    constructor; [|constructor]. intros r. vm_compute. discriminate.
Defined.

(** C6, as stated, fails.  In the text whose lines are [1 A] and
    [x A RB], the line [x A RB] is not blank, has three tokens, and its
    first token is no integer; the parse fails, but with the malformed-line
    message for the line before it, so the failure does not identify
    [x A RB].  And the first token of [1.5 A RB] is not an integer either,
    yet the line is accepted, with rank 1. *)
Lemma invalid_rank_counterexample :
  js "x A RB" ∈ split_nl (trim rank_demo_text) ∧
  trim (js "x A RB") ≠ [] ∧
  (3 ≤ length (split_ws (trim (js "x A RB"))))%nat ∧
  parseInt (default [] (split_ws (trim (js "x A RB")) !! 0%nat)) = NaN ∧
  parsePlayerText rank_demo_text
  = mkResult [] (Some (malformed_msg (js "1 A"))) ∧
  error (parsePlayerText rank_demo_text)
  ≠ Some (could_not_parse_msg (js "x A RB")) ∧
  parsePlayerText (js "1.5 A RB")
  = mkResult [mkPlayer (Num 1) (js "A") (js "RB")] None.
Proof.
  split; [vm_compute; apply list_elem_of_further, list_elem_of_here|].
  split; [done|]. split; [vm_compute; lia|]. split; [reflexivity|].
  split; [reflexivity|]. split; [vm_compute; discriminate|reflexivity].
Qed.

(** C6, amended.  A text with a non-blank line of three tokens or more
    whose first token [parseInt] maps to [NaN] fails to parse and returns
    no players; when no earlier line makes the parser return, the error is
    the could-not-parse message quoting that line.  That message differs
    from the malformed-line message.  There is no further error for an
    empty name or position: a line gets the could-not-parse message only
    when it is non-blank, has three tokens or more and a first token that
    [parseInt] maps to [NaN]. *)
Theorem invalid_rank_fails (text line : jsstring)
    (pre post : list jsstring) :
  split_nl (trim text) = pre ++ line :: post →
  trim line ≠ [] →
  (3 ≤ length (split_ws (trim line)))%nat →
  parseInt (default [] (split_ws (trim line) !! 0%nat)) = NaN →
  players (parsePlayerText text) = [] ∧
  error (parsePlayerText text) ≠ None ∧
  (Forall (λ l, ∀ r, parse_line l ≠ Return r) pre →
   parsePlayerText text = mkResult [] (Some (could_not_parse_msg line))) ∧
  (∀ line', could_not_parse_msg line ≠ malformed_msg line') ∧
  (∀ l,
     parse_line l = Return (mkResult [] (Some (could_not_parse_msg l))) →
     trim l ≠ [] ∧ (3 ≤ length (split_ws (trim l)))%nat ∧
     parseInt (default [] (split_ws (trim l) !! 0%nat)) = NaN).
Proof.
  intros Hlines Hne Hlen Hnan.
  assert (parse_line line
          = Return (mkResult [] (Some (could_not_parse_msg line)))) as Hline.
  { destruct (parts_decompose _ Hlen) as (first & mids & lst & Hparts & Hmids).
    rewrite (parse_line_parts line first lst mids) by done.
    rewrite Hparts in Hnan. simpl in Hnan.
    apply check_fields_invalid. unfold invalid_fields. by rewrite Hnan. }
  unfold parsePlayerText at 1 2. rewrite Hlines.
  destruct (parse_lines_return pre line post _ [] Hline) as [Hps Herr].
  split; [done|]. split; [done|]. split.
  - intros Hpre. by eapply parsePlayerText_first_return.
  - split; [apply messages_differ|]. apply could_not_parse_is_NaN.
Qed.

Lemma invalid_rank_fails_witness :
  players (parsePlayerText (js "1 A RB" ++ [newline] ++ js "x B WR")) = [] ∧
  error (parsePlayerText (js "1 A RB" ++ [newline] ++ js "x B WR")) ≠ None ∧
  parsePlayerText (js "1 A RB" ++ [newline] ++ js "x B WR")
  = mkResult [] (Some (could_not_parse_msg (js "x B WR"))).
Proof.
  destruct (invalid_rank_fails (js "1 A RB" ++ [newline] ++ js "x B WR")
              (js "x B WR") [js "1 A RB"] [])
    as (Hplayers & Herror & Hfirst & _).
  - reflexivity.
  - discriminate.
  - vm_compute. lia.
  - reflexivity.
  - split; [exact Hplayers|]. split; [exact Herror|]. apply Hfirst.
    constructor; [|constructor]. intros r. vm_compute. discriminate.
Defined.

(** C7, as stated, fails: the rank is not checked against 1, and it need
    not be an integer.  The line [0 A RB] parses, and to a record of rank
    0; the line whose rank is 2 followed by 308 zeros parses to a record of
    rank [Infinity]. *)
Lemma rank_bound_counterexample :
  parsePlayerText (js "0 A RB")
  = mkResult [mkPlayer (Num 0) (js "A") (js "RB")] None ∧
  ¬ Forall record_as_claimed (players (parsePlayerText (js "0 A RB"))) ∧
  parsePlayerText overflow_text
  = mkResult [mkPlayer (Infinity false) (js "A") (js "RB")] None.
Proof.
  assert (parsePlayerText (js "0 A RB")
          = mkResult [mkPlayer (Num 0) (js "A") (js "RB")] None) as ->
    by reflexivity.
  split; [done|]. split; [|by vm_compute]. cbn [players].
  intros [[(z & Hz & Hle) _] _]%Forall_cons. cbn [rank] in Hz.
  assert (z = 0) by congruence. lia.
Qed.

(** C7, amended.  Every record of a parse without error has a rank that is
    not [NaN]: it is an integer, which may be zero or negative, or an
    infinity, when the numeral is past the largest double; its name is
    non-empty, and its position is a non-empty token without whitespace. *)
Theorem parsed_record_model (text : jsstring) :
  error (parsePlayerText text) = None →
  Forall (λ p, ((∃ z, rank p = Num z) ∨ (∃ b, rank p = Infinity b)) ∧
               name p ≠ [] ∧ token (position p))
    (players (parsePlayerText text)).
Proof.
  intros Herr. unfold parsePlayerText in *.
  destruct (parse_lines_ok _ _ Herr) as (ps & Hwf & ->). simpl.
  eapply Forall_impl; [exact Hwf|].
  intros p Hp. pose proof (well_formed_not_NaN p Hp) as Hnan.
  destruct Hp as (negative & m & mids & Hm & Hrank & Hmids & Htok & Hname
                  & Hpos).
  split; [|split; [|done]].
  - destruct (rank p) as [|z|b]; [done|left; by exists z|right; by exists b].
  - rewrite Hname. by apply join_tokens_nonempty.
Qed.

Lemma parsed_record_model_witness :
  Forall (λ p, ((∃ z, rank p = Num z) ∨ (∃ b, rank p = Infinity b)) ∧
               name p ≠ [] ∧ token (position p))
    (players (parsePlayerText (js "-3 Ja'Marr  Chase WR1"))).
Proof.
  apply (parsed_record_model (js "-3 Ja'Marr  Chase WR1")). reflexivity.
Defined.




(** C10.  For a non-blank line that splits into three tokens or more, every
    token is non-empty, so the name and the position are non-empty, and the
    combined test fires exactly when the first token fails to parse as an
    integer: the parser returns the could-not-parse message if and only if
    the rank is [NaN]; an empty name or position cannot be reached. *)
Theorem invalid_format_unreachable (line : jsstring) :
  let parts := split_ws (trim line) in
  let rank := parseInt (default [] (parts !! 0%nat)) in
  let position := default [] (last parts) in
  let name := join (js " ") (slice_middle parts) in
  trim line ≠ [] → (3 ≤ length parts)%nat →
  Forall (λ t, t ≠ []) parts ∧
  name ≠ [] ∧ position ≠ [] ∧
  falsy name = false ∧ falsy position = false ∧
  (invalid_fields rank name position = true ↔ rank = NaN) ∧
  (parse_line line = Return (mkResult [] (Some (could_not_parse_msg line)))
   ↔ rank = NaN) ∧
  (rank ≠ NaN → parse_line line = Push (mkPlayer rank name position)).
Proof.
  intros parts rank position name Hne Hlen.
  pose proof (split_ws_trim line Hne) as Htok. fold parts in Htok.
  destruct (parts_decompose _ Hlen) as (first & mids & lst & Hparts & Hmids).
  pose proof (parse_line_parts line first lst mids Hne Hparts Hmids) as Hline.
  subst rank position name. rewrite Hparts in *.
  rewrite slice_middle_parts, last_parts. simpl.
  pose proof Htok as Htok'.
  apply Forall_cons in Htok' as [_ Htok'].
  apply Forall_app in Htok' as [Hmtok Hlst].
  apply (proj1 (Forall_singleton _ _)) in Hlst.
  pose proof (join_tokens_nonempty mids Hmids Hmtok) as Hname.
  assert (falsy (join (js " ") mids) = false) as Hfn
    by by destruct (join (js " ") mids).
  assert (falsy lst = false) as Hfp by (destruct Hlst; by destruct lst).
  assert (invalid_fields (parseInt first) (join (js " ") mids) lst = true
          ↔ parseInt first = NaN) as Hinv.
  { unfold invalid_fields. rewrite Hfn, Hfp, !orb_false_r.
    by destruct (parseInt first). }
  split; [eapply Forall_impl; [exact Htok|]; by intros t [? _]|].
  split; [done|]. split; [apply Hlst|]. split; [done|]. split; [done|].
  split; [done|]. rewrite Hline. clear Hinv. unfold check_fields, invalid_fields.
  rewrite Hfn, Hfp. destruct (parseInt first) as [|z|b]; simpl.
  - split; [done|]. by intros [].
  - split; [by split|done].
  - split; [by split|done].
Qed.

Lemma invalid_format_unreachable_witness :
  parse_line (js " 7  Bijan Robinson RB ")
  = Push (mkPlayer (Num 7) (js "Bijan Robinson") (js "RB")).
Proof.
  destruct (invalid_format_unreachable (js " 7  Bijan Robinson RB "))
    as (_ & _ & _ & _ & _ & _ & _ & Hpush).
  - discriminate.
  - vm_compute. lia.
  - apply Hpush. discriminate.
Defined.

(** * Further properties *)

(** ** The parser: which texts parse, and what a failure reports *)

Lemma parse_line_cases (line : jsstring) :
  (blank line ∧ parse_line line = Continue)
  ∨ (∃ e, offending line e ∧ parse_line line = Return (mkResult [] (Some e)))
  ∨ (¬ blank line ∧ acceptable line ∧ ∃ p, parse_line line = Push p).
Proof.
  destruct (decide (blank line)) as [Hb|Hb].
  { left. split; [done|]. unfold parse_line. unfold blank in Hb.
    by rewrite Hb. }
  right. unfold blank in Hb.
  destruct (Nat.ltb_spec (length (split_ws (trim line))) 3) as [Hlt|Hge].
  { left. exists (malformed_msg line). split; [split; [done|by left]|].
    by apply parse_line_malformed. }
  destruct (parts_decompose _ Hge) as (first & mids & lst & Hparts & Hmids).
  pose proof (parse_line_parts line first lst mids Hb Hparts Hmids) as Hline.
  pose proof (split_ws_trim line Hb) as Htok. rewrite Hparts in Htok.
  apply Forall_cons in Htok as [_ Htok].
  apply Forall_app in Htok as [Hmtok Hlst].
  apply (proj1 (Forall_singleton _ _)) in Hlst.
  pose proof (join_tokens_nonempty mids Hmids Hmtok) as Hname.
  assert (default [] (split_ws (trim line) !! 0%nat) = first) as Hfirst
    by by rewrite Hparts.
  destruct (decide (parseInt first = NaN)) as [Hrank|Hrank].
  - left. exists (could_not_parse_msg line). split.
    + split; [done|]. right. by rewrite Hfirst, Hrank.
    + rewrite Hline. apply check_fields_invalid. by rewrite Hrank.
  - right. split; [done|]. split.
    + split; [done|]. by rewrite Hfirst.
    + exists (mkPlayer (parseInt first) (join (js " ") mids) lst).
      rewrite Hline. unfold check_fields, invalid_fields.
      destruct Hlst as [Hne _].
      destruct (parseInt first); [done| |];
        (destruct (join (js " ") mids); [done|]; by destruct lst).
Qed.

Lemma offending_not_accepted (line e : jsstring) :
  offending line e → ¬ (blank line ∨ acceptable line).
Proof.
  intros [Hnb Hoff] [Hb|[Hlen Hrank]]; [done|].
  destruct Hoff as [[Hlt _]|(_ & Hnan & _)]; [lia|done].
Qed.

Lemma parse_lines_spec (lines : list jsstring) :
  ∀ acc,
    (Forall (λ l, blank l ∨ acceptable l) lines ∧
     ∃ ps, parse_lines lines acc = mkResult (acc ++ ps) None ∧
           length ps = length (filter (λ l, ¬ blank l) lines))
    ∨ (∃ pre line post e,
         lines = pre ++ line :: post ∧
         Forall (λ l, blank l ∨ acceptable l) pre ∧
         offending line e ∧
         parse_lines lines acc = mkResult [] (Some e)).
Proof.
  induction lines as [|l lines IH]; intros acc.
  - left. split; [constructor|]. exists []. by rewrite app_nil_r.
  - cbn [parse_lines].
    destruct (parse_line_cases l)
      as [[Hb ->]|[(e & Hoff & ->)|(Hnb & Hacc & p & ->)]].
    + destruct (IH acc) as [[Hall (ps & Heq & Hlen)]|
                            (pre & line & post & e & -> & Hpre & Hoff & Heq)].
      * left. split; [constructor; [by left|done]|].
        exists ps. split; [done|].
        by rewrite filter_cons_False by (by intros Hn).
      * right. exists (l :: pre), line, post, e.
        split; [done|]. split; [constructor; [by left|done]|]. done.
    + right. by exists [], l, lines, e.
    + destruct (IH (acc ++ [p]))
        as [[Hall (ps & Heq & Hlen)]|
            (pre & line & post & e & -> & Hpre & Hoff & Heq)].
      * left. split; [constructor; [by right|done]|].
        exists (p :: ps). split; [by rewrite Heq, <- app_assoc|].
        rewrite filter_cons_True by done. simpl. by rewrite Hlen.
      * right. exists (l :: pre), line, post, e.
        split; [done|]. split; [constructor; [by right|done]|]. done.
Qed.

(** X1.  A failed parse returns no players, and its error quotes the first
    line of the trimmed text that is neither blank nor acceptable: the
    malformed-line message when that line has fewer than three tokens, the
    could-not-parse message when its first token is not a number. *)
Theorem parse_error_first_offender (text e : jsstring) :
  error (parsePlayerText text) = Some e →
  players (parsePlayerText text) = [] ∧
  ∃ pre line post,
    split_nl (trim text) = pre ++ line :: post ∧
    Forall (λ l, blank l ∨ acceptable l) pre ∧
    offending line e.
Proof.
  unfold parsePlayerText. intros Herr.
  destruct (parse_lines_spec (split_nl (trim text)) [])
    as [[_ (ps & Heq & _)]|(pre & line & post & e' & Hl & Hpre & Hoff & Heq)].
  - by rewrite Heq in Herr.
  - rewrite Heq in *. simpl in Herr. injection Herr as ->.
    split; [done|]. by exists pre, line, post.
Qed.

Lemma parse_error_first_offender_witness :
  players (parsePlayerText demo_text) = [] ∧
  ∃ pre line post,
    split_nl (trim demo_text) = pre ++ line :: post ∧
    Forall (λ l, blank l ∨ acceptable l) pre ∧
    offending line (could_not_parse_msg (js "x A RB")).
Proof.
  apply (parse_error_first_offender demo_text
           (could_not_parse_msg (js "x A RB"))).
  reflexivity.
Defined.

(** X2.  A text parses without error exactly when every line of the
    trimmed text is blank or acceptable (three tokens or more, the first
    starting with an integer); the records are then as many as the
    non-blank lines. *)
Theorem parse_succeeds_iff (text : jsstring) :
  (error (parsePlayerText text) = None
   ↔ Forall (λ l, blank l ∨ acceptable l) (split_nl (trim text)))
  ∧ (error (parsePlayerText text) = None →
     length (players (parsePlayerText text))
     = length (filter (λ l, ¬ blank l) (split_nl (trim text)))).
Proof.
  unfold parsePlayerText.
  destruct (parse_lines_spec (split_nl (trim text)) [])
    as [[Hall (ps & Heq & Hlen)]|
        (pre & line & post & e & Hl & Hpre & Hoff & Heq)].
  - rewrite Heq. simpl. split; [done|]. by intros _.
  - rewrite Heq. simpl. split; [|done]. split; [done|].
    rewrite Hl. intros [_ Hline%Forall_cons_1]%Forall_app.
    destruct Hline as [Hline _]. exfalso.
    by apply (offending_not_accepted line e).
Qed.

Lemma parse_succeeds_iff_witness :
  length (players (parsePlayerText
                     (js "1 A RB" ++ [newline] ++ js "  " ++ [newline]
                      ++ js "2 B C WR")))
  = length (filter (λ l, ¬ blank l)
              (split_nl (trim (js "1 A RB" ++ [newline] ++ js "  "
                               ++ [newline] ++ js "2 B C WR")))).
Proof.
  apply (parse_succeeds_iff
           (js "1 A RB" ++ [newline] ++ js "  " ++ [newline]
            ++ js "2 B C WR")).
  reflexivity.
Defined.

Lemma drop_ws_app_ws (w s : jsstring) :
  Forall (λ c, is_ws c = true) w → drop_ws (w ++ s) = drop_ws s.
Proof. induction 1 as [|c w Hc _ IH]; [done|]. simpl. by rewrite Hc. Qed.

Lemma drop_ws_split (s : jsstring) :
  ∃ w, Forall (λ c, is_ws c = true) w ∧ s = w ++ drop_ws s.
Proof.
  induction s as [|c s (w & Hw & IH)]; [by exists []|]. simpl.
  destruct (is_ws c) eqn:Hc; [|by exists []].
  exists (c :: w). split; [by constructor|]. simpl. by rewrite <- IH.
Qed.

Lemma trim_ws_prefix (w s : jsstring) :
  Forall (λ c, is_ws c = true) w → trim (w ++ s) = trim s.
Proof. intros Hw. unfold trim. by rewrite drop_ws_app_ws. Qed.

Lemma trim_ws_suffix (s w : jsstring) :
  Forall (λ c, is_ws c = true) w → trim (s ++ w) = trim s.
Proof.
  intros Hw. unfold trim.
  destruct (drop_ws_split s) as (w0 & Hw0 & Hs).
  rewrite Hs at 1. rewrite <- app_assoc, drop_ws_app_ws by done.
  pose proof (drop_ws_starts s) as Hstart.
  destruct (drop_ws s) as [|c d] eqn:Hd.
  - simpl. rewrite <- (app_nil_r w), drop_ws_app_ws by done. done.
  - simpl in Hstart. cbn [app drop_ws]. rewrite Hstart.
    change (c :: d ++ w) with ((c :: d) ++ w).
    rewrite rev_app_distr, drop_ws_app_ws; [done|]. by apply Forall_rev.
Qed.

(** X3.  Whitespace around the text does not matter: leading and trailing
    blank lines, spaces and line feeds are trimmed away before the lines
    are read, so the result is that of the text without them. *)
Theorem parse_ignores_outer_whitespace (before text after : jsstring) :
  Forall (λ c, is_ws c = true) before →
  Forall (λ c, is_ws c = true) after →
  parsePlayerText (before ++ text ++ after) = parsePlayerText text.
Proof.
  intros Hb Ha. unfold parsePlayerText.
  by rewrite trim_ws_prefix, trim_ws_suffix.
Qed.

Lemma parse_ignores_outer_whitespace_witness :
  parsePlayerText ([newline] ++ js "  " ++ js "1 A RB" ++ js " " ++ [newline])
  = parsePlayerText (js "1 A RB").
Proof.
  apply (parse_ignores_outer_whitespace ([newline] ++ js "  ") (js "1 A RB")
           (js " " ++ [newline])).
  - by repeat constructor.
  - by repeat constructor.
Defined.

Lemma take_digits_app (ds rest : jsstring) :
  Forall (λ c, is_digit c = true) ds → starts_digit rest = false →
  take_digits (ds ++ rest) = ds.
Proof.
  intros Hds Hrest. induction Hds as [|c ds Hc _ IH]; simpl.
  - destruct rest as [|c rest]; [done|]. simpl in *. by rewrite Hrest.
  - by rewrite Hc, IH.
Qed.

(** [parseInt] reads the integer a string starts with and ignores what
    follows it. *)
Lemma int_to_string_token (z : Z) : token (int_to_string z).
Proof.
  unfold int_to_string. pose proof (decimal_digits (if z <? 0 then - z else z)).
  destruct (z <? 0).
  - split; [done|]. constructor; [done|].
    eapply Forall_impl; [done|]. apply is_digit_not_ws.
  - split; [apply decimal_nonempty|].
    eapply Forall_impl; [done|]. apply is_digit_not_ws.
Qed.

Lemma parseInt_prefix (z : Z) (rest : jsstring) :
  starts_digit rest = false → - 2 ^ 53 < z < 2 ^ 53 →
  parseInt (int_to_string z ++ rest) = Num z.
Proof.
  intros Hrest Hz. unfold int_to_string. destruct (Z.ltb_spec z 0).
  - unfold parseInt. simpl.
    rewrite take_digits_app by (done || apply decimal_digits).
    pose proof (decimal_nonempty (- z)).
    destruct (decimal (- z)) eqn:E; [done|].
    rewrite <- E, decimal_value by lia.
    rewrite to_number_small by lia. f_equal. lia.
  - pose proof (decimal_nonempty z) as Hne.
    pose proof (decimal_digits z) as Hds.
    pose proof (decimal_value z ltac:(lia)) as Hval.
    destruct (decimal z) as [|c ds] eqn:E; [done|].
    pose proof (Forall_inv Hds) as Hc.
    unfold parseInt. simpl drop_ws. rewrite (is_digit_not_ws _ Hc).
    destruct (digit_not_sign c Hc) as [H45 H43].
    cbn [app]. rewrite !decide_False by done.
    change (c :: ds ++ rest) with ((c :: ds) ++ rest).
    rewrite take_digits_app by done. rewrite Hval.
    by rewrite to_number_small by lia.
Qed.

(** X4.  The rank needs only start with an integer: a line whose first
    token is an integer below 2^53 in magnitude, which a double holds
    exactly, followed by other characters, not a digit first, parses to the
    record of that integer, the rest of the token being dropped. *)
Theorem rank_suffix_ignored (z : Z) (suffix position : jsstring)
    (mids : list jsstring) :
  - 2 ^ 53 < z < 2 ^ 53 →
  Forall (λ c, is_ws c = false) suffix → starts_digit suffix = false →
  mids ≠ [] → Forall token mids → token position →
  parsePlayerText
    (join (js " ") ((int_to_string z ++ suffix) :: mids ++ [position]))
  = mkResult [mkPlayer (Num z) (join (js " ") mids) position] None.
Proof.
  intros Hz Hsuf Hdig Hmids Hmtok Hpos.
  set (first := int_to_string z ++ suffix).
  assert (token first) as Hfirst.
  { destruct (int_to_string_token z) as [Hne Hws]. split.
    - intros [? _]%app_eq_nil. done.
    - by apply Forall_app. }
  assert (Forall token (first :: mids ++ [position])) as Htok.
  { constructor; [done|]. apply Forall_app. split; [done|by constructor]. }
  set (line := join (js " ") (first :: mids ++ [position])).
  assert (trim line = line) as Htrim
    by (apply trim_id; [by apply join_tokens_starts|by apply join_tokens_ends]).
  assert (line ≠ []) as Hne by by apply join_tokens_nonempty.
  unfold parsePlayerText. rewrite Htrim.
  rewrite split_nl_line by by apply join_tokens_no_newline.
  cbn [parse_lines].
  rewrite (parse_line_parts line first position mids);
    [|by rewrite Htrim|rewrite Htrim; by apply split_ws_join|done].
  unfold check_fields, invalid_fields, first.
  rewrite parseInt_prefix by done.
  pose proof (join_tokens_nonempty mids Hmids Hmtok).
  destruct Hpos as [Hpne _].
  destruct (join (js " ") mids) eqn:E; [done|]. by destruct position.
Qed.

Lemma rank_suffix_ignored_witness :
  parsePlayerText
    (join (js " ") ((int_to_string 12 ++ js "th.") :: [js "Bo"; js "Nix"]
                    ++ [js "QB"]))
  = mkResult [mkPlayer (Num 12) (join (js " ") [js "Bo"; js "Nix"]) (js "QB")]
      None.
Proof.
  apply (rank_suffix_ignored 12 (js "th.") (js "QB") [js "Bo"; js "Nix"]).
  - lia.
  - by repeat constructor.
  - reflexivity.
  - discriminate.
  - repeat constructor; discriminate.
  - repeat constructor; discriminate.
Defined.

(** ** The assigner: what the board holds *)

Lemma generateSnakeDraft_cases (players : list Player) (numTeams : Z) :
  (players = [] ∨ numTeams ≤ 0) ∧ generateSnakeDraft players numTeams = Some []
  ∨ players ≠ [] ∧ 0 < numTeams < 2 ^ 32 ∧
    generateSnakeDraft players numTeams = Some (snake_board players numTeams)
  ∨ players ≠ [] ∧ 2 ^ 32 ≤ numTeams ∧
    generateSnakeDraft players numTeams = None.
Proof.
  destruct (decide (players = [])) as [->|Hne]; [left; by split; [left|]|].
  destruct (decide (numTeams ≤ 0)) as [HT|HT].
  - left. split; [by right|]. unfold generateSnakeDraft.
    replace (numTeams <=? 0) with true by (symmetry; apply Z.leb_le; lia).
    by rewrite orb_true_r.
  - right. destruct (decide (numTeams < 2 ^ 32)) as [Hmax|Hmax].
    + left. split; [done|]. split; [lia|].
      apply generateSnakeDraft_snake_board; [done|lia].
    + right. split; [done|]. split; [lia|].
      apply generateSnakeDraft_throws; [done|lia].
Qed.

(** X5.  When the assigner returns and when it throws.  For a team count
    below 2^32 it returns a board, which has no team exactly when the list
    is empty or the team count is zero or less, and [numTeams] teams
    otherwise.  For a non-empty list and a team count of 2^32 or more it
    throws, no row of that length being allocated. *)
Theorem generateSnakeDraft_returns (players : list Player) (numTeams : Z) :
  (numTeams < 2 ^ 32 →
   ∃ board,
     generateSnakeDraft players numTeams = Some board ∧
     (board = [] ↔ players = [] ∨ numTeams ≤ 0) ∧
     (board ≠ [] → Z.of_nat (length board) = numTeams))
  ∧ (generateSnakeDraft players numTeams = None
     ↔ players ≠ [] ∧ 2 ^ 32 ≤ numTeams).
Proof.
  destruct (generateSnakeDraft_cases players numTeams)
    as [[Hdeg ->]|[(Hne & HT & ->)|(Hne & HT & ->)]].
  - split.
    + intros _. exists []. by split_and!.
    + split; [done|]. intros [Hne HT]. destruct Hdeg; [done|lia].
  - split; [|split; [done|lia]].
    intros _. exists (snake_board players numTeams). split; [done|].
    assert (Z.of_nat (length (snake_board players numTeams)) = numTeams)
      as Hlen by (unfold snake_board; rewrite length_fmap, length_seqZ; lia).
    split; [|done]. split.
    + intros Heq. rewrite Heq in Hlen. simpl in Hlen. lia.
    + intros [?|?]; [done|lia].
  - split; [lia|done].
Qed.

Lemma omap_cell_player_index_cell (players : list Player) (l : list Z) :
  omap cell_player (index_cell players <$> l) = omap (array_get players) l.
Proof.
  induction l as [|i l IH]; [done|]. rewrite fmap_cons. cbn [omap list_omap].
  rewrite IH. unfold index_cell. by destruct (array_get players i).
Qed.

Lemma omap_lookup_seq {A} (l pre : list A) :
  omap (λ i, (pre ++ l) !! i) (seq (length pre) (length l)) = l.
Proof.
  revert pre. induction l as [|x l IH]; intros pre; [done|].
  cbn [length seq omap list_omap].
  rewrite lookup_app_r, Nat.sub_diag by lia. simpl. f_equal.
  specialize (IH (pre ++ [x])).
  rewrite <- app_assoc, length_app in IH. simpl in IH.
  by rewrite Nat.add_1_r in IH.
Qed.

Lemma omap_array_get_seqZ {A} (l : list A) :
  omap (array_get l) (seqZ 0 (Z.of_nat (length l))) = l.
Proof.
  unfold seqZ. rewrite Nat2Z.id.
  rewrite <- (omap_lookup_seq l []) at 3. simpl.
  induction (seq 0 (length l)) as [|i s IH]; [done|].
  rewrite fmap_cons. cbn [omap list_omap].
  rewrite IH. replace (Z.of_nat i + 0) with (Z.of_nat i) by lia.
  by rewrite array_get_nat.
Qed.

Lemma omap_none {A B} (f : A → option B) (l : list A) :
  Forall (λ x, f x = None) l → omap f l = [].
Proof.
  induction 1 as [|x l Hx _ IH]; [done|]. cbn [omap list_omap].
  by rewrite Hx, IH.
Qed.

Lemma omap_array_get_range {A} (l : list A) (m : Z) :
  Z.of_nat (length l) ≤ m → omap (array_get l) (seqZ 0 m) = l.
Proof.
  intros Hm.
  replace m with (Z.of_nat (length l) + (m - Z.of_nat (length l))) by lia.
  rewrite seqZ_app, omap_app, omap_array_get_seqZ by lia.
  rewrite omap_none; [by rewrite app_nil_r|].
  apply Forall_seqZ. intros i Hi. unfold array_get.
  destruct (i <? 0); [done|]. apply lookup_ge_None. lia.
Qed.

(** X6.  Every player is seated exactly once: for a team count of at least
    one and below 2^32, the players held by the cells of the board are the
    input list, up to order. *)
Theorem every_player_placed_once (players : list Player) (numTeams : Z) :
  players ≠ [] → 1 ≤ numTeams → numTeams < 2 ^ 32 →
  ∃ board,
    generateSnakeDraft players numTeams = Some board ∧
    omap cell_player (board_cells board) ≡ₚ players.
Proof.
  intros Hne HT Hmax. exists (snake_board players numTeams).
  split; [apply generateSnakeDraft_snake_board; [done|lia]|].
  rewrite board_cells_snake_board, omap_cell_player_index_cell.
  rewrite snake_indices_perm by lia.
  rewrite omap_array_get_range; [done|].
  pose proof (ceil_div_bounds numTeams ltac:(lia)
                (Z.of_nat (length players)) ltac:(lia)). lia.
Qed.

Lemma every_player_placed_once_witness :
  ∃ board,
    generateSnakeDraft seven_players 3 = Some board ∧
    omap cell_player (board_cells board) ≡ₚ seven_players.
Proof.
  apply (every_player_placed_once seven_players 3).
  - discriminate.
  - lia.
  - lia.
Defined.

(** X7.  Empty slots occur only in the last round: in every earlier round
    every team holds a player.  The player list is an array, of fewer than
    2^32 elements; a round before the last needs more players than teams,
    so the team count is below 2^32 too. *)
Theorem empty_slots_only_in_last_round (players : list Player)
    (numTeams t r : Z) :
  Z.of_nat (length players) < 2 ^ 32 →
  players ≠ [] → 1 ≤ numTeams →
  0 ≤ t < numTeams →
  0 ≤ r < ceil_div (Z.of_nat (length players)) numTeams - 1 →
  ∃ board p,
    generateSnakeDraft players numTeams = Some board ∧
    board_at board t r = Some (CPlayer p).
Proof.
  intros Harray Hne HT Ht Hr.
  pose proof (ceil_div_bounds numTeams ltac:(lia)
                (Z.of_nat (length players)) ltac:(lia)) as Hb.
  set (R := ceil_div (Z.of_nat (length players)) numTeams) in *.
  assert (numTeams < 2 ^ 32) as Hmax by nia.
  pose proof (snake_index_range numTeams ltac:(lia) r t (R - 1)
                ltac:(lia) Ht) as Hidx.
  destruct (lookup_lt_is_Some_2 players
              (Z.to_nat (snake_index numTeams r t)) ltac:(lia)) as [p Hp].
  exists (snake_board players numTeams), p.
  split; [apply generateSnakeDraft_snake_board; [done|lia]|].
  rewrite board_at_snake_board by (fold R; lia).
  unfold snake_cell, index_cell.
  by rewrite (proj2 (array_get_Some players _ p)) by (split; [lia|done]).
Qed.

Lemma empty_slots_only_in_last_round_witness :
  ∃ board p,
    generateSnakeDraft seven_players 3 = Some board ∧
    board_at board 2 1 = Some (CPlayer p).
Proof.
  apply (empty_slots_only_in_last_round seven_players 3 2 1).
  - vm_compute. reflexivity.
  - discriminate.
  - lia.
  - lia.
  - vm_compute. split; [discriminate|reflexivity].
Defined.

(** X8.  The snake turns at every round boundary: the last pick of a round
    and the first pick of the next round go to the same team, team 1 or
    team [numTeams] by the parity of the round.  The player list is an
    array, of fewer than 2^32 elements; holding a player at index
    [k * numTeams], it has more players than teams. *)
Theorem snake_turn (players : list Player) (numTeams k : Z) (p q : Player) :
  Z.of_nat (length players) < 2 ^ 32 →
  1 ≤ numTeams → 1 ≤ k →
  array_get players (k * numTeams - 1) = Some p →
  array_get players (k * numTeams) = Some q →
  ∃ board t,
    generateSnakeDraft players numTeams = Some board ∧
    (t = 0 ∨ t = numTeams - 1) ∧
    board_at board t (k - 1) = Some (CPlayer p) ∧
    board_at board t k = Some (CPlayer q).
Proof.
  intros Harray HT Hk Hp Hq.
  pose proof Hq as [_ Hq']%array_get_Some.
  pose proof (lookup_lt_Some _ _ _ Hq') as Hlt.
  assert (players ≠ []) as Hne by (by intros ->).
  assert (numTeams < 2 ^ 32) as Hmax by nia.
  pose proof (round_lt_numRounds numTeams ltac:(lia)
                (Z.of_nat (length players)) (k * numTeams) ltac:(nia))
    as Hround.
  rewrite Z.div_mul in Hround by lia.
  set (t := if Z.rem k 2 =? 0 then 0 else numTeams - 1).
  assert (0 ≤ t < numTeams) as Ht by (subst t; destruct (_ =? _); lia).
  assert (Z.rem k 2 = k mod 2) as Hk2 by (apply Z.rem_mod_nonneg; lia).
  assert (Z.rem (k - 1) 2 = (k - 1) mod 2) as Hk1
    by (apply Z.rem_mod_nonneg; lia).
  assert (snake_index numTeams k t = k * numTeams) as Hidxq.
  { unfold snake_index, t. destruct (Z.rem k 2 =? 0); lia. }
  assert (snake_index numTeams (k - 1) t = k * numTeams - 1) as Hidxp.
  { unfold snake_index, t. rewrite Hk1, Hk2.
    replace ((k - 1) * numTeams) with (k * numTeams - numTeams) by ring.
    generalize (k * numTeams). intros m.
    destruct (Z.eqb_spec (k mod 2) 0), (Z.eqb_spec ((k - 1) mod 2) 0);
      Z.to_euclidean_division_equations; lia. }
  exists (snake_board players numTeams), t.
  split; [apply generateSnakeDraft_snake_board; [done|lia]|].
  split; [subst t; destruct (_ =? _); lia|].
  rewrite !board_at_snake_board by lia.
  unfold snake_cell, index_cell. by rewrite Hidxp, Hidxq, Hp, Hq.
Qed.

Lemma snake_turn_witness :
  ∃ board t,
    generateSnakeDraft seven_players 3 = Some board ∧
    (t = 0 ∨ t = 3 - 1) ∧
    board_at board t (2 - 1)
    = Some (CPlayer (mkPlayer (Num 6) (js "P") (js "RB"))) ∧
    board_at board t 2 = Some (CPlayer (mkPlayer (Num 7) (js "P") (js "RB"))).
Proof.
  apply (snake_turn seven_players 3 2).
  - vm_compute. reflexivity.
  - lia.
  - lia.
  - reflexivity.
  - reflexivity.
Defined.

(** X9.  For a team count of at least one and below 2^32, the keys of the
    board are [Team 1], [Team 2], ..., one for each team, in that order and
    all different. *)
Theorem board_team_keys (players : list Player) (numTeams : Z) :
  players ≠ [] → 1 ≤ numTeams → numTeams < 2 ^ 32 →
  ∃ board,
    generateSnakeDraft players numTeams = Some board ∧
    obj_keys board
    = (λ t, js "Team " ++ int_to_string (t + 1)) <$> seqZ 0 numTeams ∧
    NoDup (obj_keys board).
Proof.
  intros Hne HT Hmax. exists (snake_board players numTeams).
  split; [apply generateSnakeDraft_snake_board; [done|lia]|].
  assert (obj_keys (snake_board players numTeams)
          = teamKey <$> seqZ 0 numTeams) as ->.
  { unfold obj_keys, snake_board. by rewrite <- list_fmap_compose. }
  split; [done|].
  apply NoDup_fmap_2_strong; [|apply NoDup_seqZ].
  intros t t' _ _. apply teamKey_inj.
Qed.

Lemma board_team_keys_witness :
  ∃ board,
    generateSnakeDraft seven_players 3 = Some board ∧
    obj_keys board = (λ t, js "Team " ++ int_to_string (t + 1)) <$> seqZ 0 3 ∧
    NoDup (obj_keys board).
Proof.
  apply (board_team_keys seven_players 3).
  - discriminate.
  - lia.
  - lia.
Defined.

(** ** The grid: picked cards and pick numbers *)

Lemma bool_decide_toggle (S : gset number) (r x : number) :
  bool_decide (x ∈ handleTogglePlayerPicked r S)
  = if decide (x = r) then negb (bool_decide (x ∈ S))
    else bool_decide (x ∈ S).
Proof.
  destruct (decide (x = r)) as [->|Hne].
  - rewrite <- bool_decide_not. apply bool_decide_ext, toggle_self.
  - by apply bool_decide_ext, toggle_other.
Qed.

Lemma render_card_toggle (boardData : DraftBoardData) (numTeams : Z)
    (S : gset number) (r : number) (roundIndex : Z) (teamName : jsstring)
    (teamIndex : Z) :
  render_card boardData numTeams (handleTogglePlayerPicked r S) roundIndex
    teamName teamIndex
  = flip_rank r (render_card boardData numTeams S roundIndex teamName
                   teamIndex).
Proof.
  unfold render_card. destruct (board_player _ _ _) as [p|]; [|done].
  simpl. by rewrite bool_decide_toggle.
Qed.

(** X10.  Toggling a rank redraws the grid with the picked flag inverted on
    every card whose player has that rank, on all of them when several
    players share the rank, and with every other card, pick number and
    place unchanged. *)
Theorem toggle_redraws_rank (boardData : DraftBoardData) (numTeams : Z)
    (S : gset number) (r : number) :
  DraftBoard boardData numTeams (handleTogglePlayerPicked r S)
  = (λ row : list card, flip_rank r <$> row)
      <$> (DraftBoard boardData numTeams S : list (list card)).
Proof.
  unfold DraftBoard. destruct (obj_keys boardData) as [|k ks]; [done|].
  rewrite <- list_fmap_compose. apply list_fmap_ext. intros _ roundIndex _.
  unfold compose. rewrite fmap_imap. apply imap_ext. intros i teamName _.
  apply render_card_toggle.
Qed.

Lemma render_card_snake_board (players : list Player) (numTeams : Z)
    (S : gset number) (r t : Z) :
  0 ≤ t < numTeams →
  0 ≤ r < ceil_div (Z.of_nat (length players)) numTeams →
  card_pick (render_card (snake_board players numTeams) numTeams S r
               (teamKey t) t)
  = index_pick players (snake_index numTeams r t).
Proof.
  intros Ht Hr. unfold render_card, board_player.
  fold (board_at (snake_board players numTeams) t r).
  rewrite board_at_snake_board by lia.
  unfold snake_cell, index_cell, index_pick.
  destruct (array_get players _); [|done].
  simpl. by rewrite overallPick_snake_index.
Qed.

Lemma omap_bind_fmap_ext {A B C D} (f : B → option D) (g : C → option D)
    (F : A → A → B) (G : A → A → C) (l1 l2 : list A) :
  (∀ x y, x ∈ l1 → y ∈ l2 → f (F x y) = g (G x y)) →
  omap f (l1 ≫= (λ x, F x <$> l2)) = omap g (l1 ≫= (λ x, G x <$> l2)).
Proof.
  intros H. induction l1 as [|x l1 IH]; [done|].
  rewrite !bind_cons, !omap_app. f_equal.
  - assert (∀ y, y ∈ l2 → f (F x y) = g (G x y)) as Hx
      by (intros y Hy; apply H; [apply list_elem_of_here|done]).
    clear -Hx. induction l2 as [|y l2 IH2]; [done|].
    rewrite !fmap_cons. cbn [omap list_omap].
    rewrite Hx by apply list_elem_of_here.
    rewrite IH2; [done|]. intros y' Hy'. apply Hx.
    by apply list_elem_of_further.
  - apply IH. intros x' y Hx' Hy. apply H; [|done].
    by apply list_elem_of_further.
Qed.

Lemma round_major_indices_perm (players : list Player) (numTeams : Z) :
  0 < numTeams →
  round_major_indices players numTeams
  ≡ₚ seqZ 0 (ceil_div (Z.of_nat (length players)) numTeams * numTeams).
Proof.
  intros HT. unfold round_major_indices.
  set (R := ceil_div (Z.of_nat (length players)) numTeams).
  apply NoDup_Permutation; [|apply NoDup_seqZ|].
  - apply NoDup_bind; [| |apply NoDup_seqZ].
    + intros r1 r2 i Hr1%elem_of_seqZ Hr2%elem_of_seqZ
        (t1 & -> & Ht1%elem_of_seqZ)%list_elem_of_fmap
        (t2 & Heq & Ht2%elem_of_seqZ)%list_elem_of_fmap.
      pose proof (snake_index_inv numTeams HT r1 t1 _
                    ltac:(lia) ltac:(lia) eq_refl) as [Hr1' _].
      pose proof (snake_index_inv numTeams HT r2 t2 _
                    ltac:(lia) ltac:(lia) (eq_sym Heq)) as [Hr2' _].
      congruence.
    + intros r Hr%elem_of_seqZ.
      apply NoDup_fmap_2_strong; [|apply NoDup_seqZ].
      intros t1 t2 Ht1%elem_of_seqZ Ht2%elem_of_seqZ Heq.
      pose proof (snake_index_inv numTeams HT r t1 _
                    ltac:(lia) ltac:(lia) eq_refl) as [_ Ht1'].
      pose proof (snake_index_inv numTeams HT r t2 _
                    ltac:(lia) ltac:(lia) (eq_sym Heq)) as [_ Ht2'].
      congruence.
  - intros i. rewrite list_elem_of_bind, elem_of_seqZ. split.
    + intros (r & (t & -> & Ht%elem_of_seqZ)%list_elem_of_fmap
                & Hr%elem_of_seqZ).
      pose proof (snake_index_range numTeams HT r t R ltac:(lia) ltac:(lia)).
      lia.
    + intros Hi. exists (i / numTeams).
      pose proof (teamIndex_of_range numTeams HT i ltac:(lia)).
      split.
      * apply list_elem_of_fmap. exists (teamIndex_of numTeams i).
        split; [by rewrite snake_index_teamIndex_of by lia|].
        apply elem_of_seqZ. lia.
      * apply elem_of_seqZ. split; [apply Z.div_pos; lia|].
        simpl. apply Z.div_lt_upper_bound; lia.
Qed.

Lemma omap_Some_fmap {A B} (f : A → option B) (h : A → B) (l : list A) :
  Forall (λ x, f x = Some (h x)) l → omap f l = h <$> l.
Proof.
  induction 1 as [|x l Hx _ IH]; [done|]. cbn [omap list_omap].
  by rewrite Hx, IH.
Qed.

Lemma omap_index_pick (players : list Player) (m : Z) :
  Z.of_nat (length players) ≤ m →
  omap (index_pick players) (seqZ 0 m) = seqZ 1 (Z.of_nat (length players)).
Proof.
  intros Hm.
  replace m with (Z.of_nat (length players) + (m - Z.of_nat (length players)))
    by lia.
  rewrite seqZ_app, omap_app by lia.
  rewrite (omap_Some_fmap _ (Z.add 1)), fmap_add_seqZ.
  - rewrite omap_none; [by rewrite app_nil_r|].
    apply Forall_seqZ. intros i Hi. unfold index_pick, array_get.
    destruct (i <? 0); [done|].
    by rewrite (proj2 (lookup_ge_None players (Z.to_nat i))) by lia.
  - apply Forall_seqZ. intros i Hi. unfold index_pick.
    destruct (lookup_lt_is_Some_2 players (Z.to_nat i) ltac:(lia)) as [p Hp].
    rewrite (proj2 (array_get_Some players i p)) by (split; [lia|done]).
    f_equal. lia.
Qed.

(** X11.  For a team count of at least one and below 2^32, the pick
    numbers shown on the grid are 1, 2, ..., playerCount, each exactly
    once: whatever the order of the cards, no number is missing or
    repeated. *)
Theorem shown_picks_complete (players : list Player) (numTeams : Z)
    (S : gset number) :
  players ≠ [] → 1 ≤ numTeams → numTeams < 2 ^ 32 →
  ∃ board,
    generateSnakeDraft players numTeams = Some board ∧
    shown_picks (DraftBoard board numTeams S)
    ≡ₚ seqZ 1 (Z.of_nat (length players)).
Proof.
  intros Hne HT Hmax. exists (snake_board players numTeams).
  split; [apply generateSnakeDraft_snake_board; [done|lia]|].
  unfold shown_picks. rewrite DraftBoard_snake_board by lia.
  rewrite list_join_bind, list_fmap_bind.
  change (id ∘ ?f) with f.
  rewrite (omap_bind_fmap_ext card_pick (index_pick players)
             (λ r t, render_card (snake_board players numTeams) numTeams S r
                       (teamKey t) t)
             (snake_index numTeams)).
  - change (omap (index_pick players) _)
      with (omap (index_pick players) (round_major_indices players numTeams)).
    rewrite round_major_indices_perm by lia.
    rewrite omap_index_pick; [done|].
    pose proof (ceil_div_bounds numTeams ltac:(lia)
                  (Z.of_nat (length players)) ltac:(lia)). lia.
  - intros r t Hr%elem_of_seqZ Ht%elem_of_seqZ.
    apply render_card_snake_board; lia.
Qed.

Lemma shown_picks_complete_witness :
  ∃ board,
    generateSnakeDraft seven_players 3 = Some board ∧
    shown_picks (DraftBoard board 3 no_picks)
    ≡ₚ seqZ 1 (Z.of_nat (length seven_players)).
Proof.
  apply (shown_picks_complete seven_players 3 no_picks).
  - discriminate.
  - lia.
  - lia.
Defined.

(** ** Position colours *)

(** X12.  The colours of a position depend only on its first two code
    units, letter case apart: what follows them is ignored, and [wr2],
    [Wr] and [WR] are coloured alike.  (Positions whose first two code
    units are ASCII.) *)
Theorem position_color_by_prefix (toUpperCase : jsstring → jsstring)
    (p q : jsstring) :
  upper_on_ascii toUpperCase →
  Forall (λ c, is_ascii c = true) (take 2 p) →
  Forall (λ c, is_ascii c = true) (take 2 q) →
  ascii_upper <$> take 2 p = ascii_upper <$> take 2 q →
  getPositionColorClasses toUpperCase p = getPositionColorClasses toUpperCase q.
Proof.
  intros Hup Hp Hq Heq. unfold getPositionColorClasses.
  by rewrite (Hup _ Hp), (Hup _ Hq), Heq.
Qed.

Lemma position_color_by_prefix_witness :
  getPositionColorClasses (fmap ascii_upper) (js "wr2")
  = getPositionColorClasses (fmap ascii_upper) (js "WR").
Proof.
  apply (position_color_by_prefix (fmap ascii_upper) (js "wr2") (js "WR")).
  - by intros s _.
  - by repeat constructor.
  - by repeat constructor.
  - reflexivity.
Defined.

(** X13.  A position of fewer than two code units, such as [K], matches no
    case of the switch and gets the default gray classes, a border of
    gray-500 and a text of gray-400. *)
Theorem short_position_default (toUpperCase : jsstring → jsstring)
    (p : jsstring) :
  upper_on_ascii toUpperCase →
  Forall (λ c, is_ascii c = true) p → (length p < 2)%nat →
  getPositionColorClasses toUpperCase p = default_colors.
Proof.
  intros Hup Hp Hlen. unfold getPositionColorClasses.
  rewrite take_ge by lia. rewrite (Hup _ Hp).
  assert (∀ k : jsstring, length k = 2%nat → ascii_upper <$> p ≠ k) as Hne.
  { intros k Hk Heq. apply (f_equal length) in Heq.
    rewrite length_fmap in Heq. lia. }
  by rewrite !decide_False by (by apply Hne).
Qed.

Lemma short_position_default_witness :
  getPositionColorClasses (fmap ascii_upper) (js "K") = default_colors.
Proof.
  apply (short_position_default (fmap ascii_upper) (js "K")).
  - by intros s _.
  - by repeat constructor.
  - simpl. lia.
Defined.

(** ** The App component: what every reachable state satisfies *)

Lemma array_get_fmap_seqZ_inv {A} (f : Z → A) (n i : Z) (x : A) :
  array_get (f <$> seqZ 0 n) i = Some x → 0 ≤ i < n ∧ x = f i.
Proof.
  intros [Hi Hx]%array_get_Some. rewrite list_lookup_fmap in Hx.
  destruct (seqZ 0 n !! Z.to_nat i) as [j|] eqn:Hj; [|done].
  apply lookup_seqZ in Hj as [-> Hlt]. simpl in Hx. injection Hx as <-.
  split; [lia|]. f_equal. lia.
Qed.

(** A card of the grid shows a player of the list the board was made
    from. *)
Lemma grid_card_player (ps : list Player) (numTeams : Z) (S : gset number)
    (board : DraftBoardData) (r t : Z) (rk : number) :
  generateSnakeDraft ps numTeams = Some board →
  grid_card (DraftBoard board numTeams S) r t ≫= card_rank = Some rk →
  ∃ p, p ∈ ps ∧ rank p = rk.
Proof.
  intros Hgen Hcard.
  destruct (generateSnakeDraft_cases ps numTeams)
    as [[_ Heq]|[(Hne & HT & Heq)|(_ & _ & Heq)]]; rewrite Heq in Hgen;
    [injection Hgen as <-|injection Hgen as <-|done].
  { unfold DraftBoard, grid_card, array_get in Hcard. simpl in Hcard.
    by destruct (r <? 0). }
  rewrite DraftBoard_snake_board in Hcard by lia. unfold grid_card in Hcard.
  destruct (array_get _ r) as [row|] eqn:Hrow; [|done].
  apply array_get_fmap_seqZ_inv in Hrow as [Hr ->]. simpl in Hcard.
  destruct (array_get _ t) as [c|] eqn:Hc; [|done].
  apply array_get_fmap_seqZ_inv in Hc as [Ht ->]. simpl in Hcard.
  unfold render_card, board_player in Hcard.
  fold (board_at (snake_board ps numTeams) t r) in Hcard.
  rewrite board_at_snake_board in Hcard by lia.
  unfold snake_cell, index_cell in Hcard.
  destruct (array_get ps _) as [p|] eqn:Hp; [|done].
  simpl in Hcard. injection Hcard as <-.
  exists p. split; [|done].
  apply array_get_Some in Hp as [_ Hp]. by eapply list_elem_of_lookup_2.
Qed.

Lemma elem_of_toggle (S : gset number) (r x : number) :
  x ∈ handleTogglePlayerPicked r S → x = r ∨ x ∈ S.
Proof.
  intros Hx. destruct (decide (x = r)) as [|Hne]; [by left|].
  right. by apply (toggle_other S r x Hne).
Qed.

Lemma bool_decide_ne_same {A} `{EqDecision A} (a b : A) :
  a = b → bool_decide (a ≠ b) = false.
Proof. intros ->. by apply bool_decide_eq_false_2; intros []. Qed.

Lemma bool_decide_ne_diff {A} `{EqDecision A} (a b : A) :
  a ≠ b → bool_decide (a ≠ b) = true.
Proof. apply bool_decide_eq_true_2. Qed.

Section app_proofs.
Variables sleeper yahoo espn : jsstring.

Local Abbreviation inv := (app_inv sleeper yahoo espn).
Local Abbreviation astep := (app_step sleeper yahoo espn).

Lemma mount_inv (storage : option jsstring) :
  inv (mount sleeper storage).
Proof.
  unfold app_inv, mount, run_effects, initial_state, parseError, parsedPlayers.
  destruct storage as [s|]; [destruct (falsy s) eqn:E|]; simpl; rewrite ?E;
    simpl; split_and!; try done; intros r Hr; by apply elem_of_empty in Hr.
Qed.

Lemma toggle_card_inv (st st' : AppState) (r t : Z) :
  inv st → toggle_card r t st = Some st' →
  inv (run_effects (Some st) st').
Proof.
  intros (Herr & Hcust & Hpre & Hpick). unfold toggle_card.
  destruct (draftData st) as [board|] eqn:Hboard; [|done]. simpl.
  destruct (grid_card _ r t ≫= card_rank) as [rk|] eqn:Hcard.
  - intros [= <-].
    unfold app_inv, run_effects, changed, parseError, parsedPlayers in *.
    simpl. rewrite !bool_decide_eq_false_2 by (by intros []). simpl.
    split_and!; [done..|].
    intros x [->|Hx]%elem_of_toggle; [|by apply Hpick].
    unfold draftData in Hboard.
    destruct (0 <? length (parsedPlayers st))%nat.
    + by eapply grid_card_player.
    + injection Hboard as <-.
      unfold DraftBoard, grid_card, array_get in Hcard. simpl in Hcard.
      by destruct (r <? 0).
  - intros [= <-].
    unfold app_inv, run_effects, changed, parseError, parsedPlayers in *.
    simpl. rewrite !bool_decide_eq_false_2 by (by intros []). done.
Qed.

Lemma step_inv (st st' : AppState) (ev : event) :
  inv st → astep st ev = Some st' → inv st'.
Proof.
  intros Hinv. pose proof Hinv as (Herr & Hcust & Hpre & Hpick).
  unfold app_step.
  destruct ev as [source|newText|n|r t|key r t]; simpl.
  - intros [= <-].
    unfold app_inv, run_effects, changed, handleDataSourceChange,
      parseError, parsedPlayers in *. simpl.
    split_and!.
    + case_bool_decide as Hch; [done|].
      by rewrite <- Hch.
    + intros ->. simpl. rewrite andb_true_r.
      destruct (decide (st_rawText st = item_or (st_storage st) []))
        as [Hsame|Hdiff].
      * destruct (decide (st_dataSource st = Custom)) as [Hc|Hc].
        -- rewrite !bool_decide_ne_same by done. simpl.
           by rewrite (Hcust Hc), Hsame at 1.
        -- rewrite (bool_decide_ne_diff (st_dataSource st)) by done.
           by rewrite orb_true_r.
      * by rewrite (bool_decide_ne_diff (st_rawText st)) by done.
    + intros Hsrc. by destruct source.
    + case_bool_decide as Hch.
      * intros x Hx. by apply elem_of_empty in Hx.
      * rewrite <- Hch. apply Hpick.
  - intros [= <-].
    unfold app_inv, run_effects, changed, handleRawTextChange,
      parseError, parsedPlayers in *. simpl.
    assert ((if bool_decide (st_dataSource st ≠ Custom) then Custom
             else st_dataSource st) = Custom) as ->.
    { by case_bool_decide as Hc. }
    split_and!.
    + case_bool_decide as Hch; [done|].
      by rewrite <- Hch.
    + intros _. rewrite (bool_decide_eq_true_2 (Custom = Custom)) by done.
      rewrite andb_true_r.
      destruct (decide (st_rawText st = newText)) as [Hsame|Hdiff].
      * destruct (decide (st_dataSource st = Custom)) as [Hc|Hc].
        -- rewrite !bool_decide_ne_same by done. simpl.
           by rewrite (Hcust Hc), Hsame.
        -- rewrite (bool_decide_ne_diff (st_dataSource st)) by done.
           by rewrite orb_true_r.
      * by rewrite (bool_decide_ne_diff (st_rawText st)) by done.
    + done.
    + case_bool_decide as Hch.
      * intros x Hx. by apply elem_of_empty in Hx.
      * rewrite <- Hch. apply Hpick.
  - intros [= <-].
    unfold app_inv, run_effects, changed, setNumTeams,
      parseError, parsedPlayers in *. simpl.
    rewrite !bool_decide_eq_false_2 by (by intros []). done.
  - destruct (toggle_card r t st) as [st1|] eqn:Htog; [|done].
    intros [= <-]. by eapply toggle_card_inv.
  - case_bool_decide.
    + destruct (toggle_card r t st) as [st1|] eqn:Htog; [|done].
      intros [= <-]. by eapply toggle_card_inv.
    + intros [= <-].
      unfold app_inv, run_effects, changed, parseError, parsedPlayers in *.
      rewrite !bool_decide_eq_false_2 by (by intros []). simpl.
      by destruct st.
Qed.

Lemma reachable_inv (st : AppState) :
  reachable sleeper yahoo espn st → inv st.
Proof.
  induction 1 as [storage|st ev st' _ IH Hstep].
  - apply mount_inv.
  - by eapply step_inv.
Qed.
End app_proofs.

Lemma parse_failed_no_players (rawText e : jsstring) :
  error (parsePlayerText rawText) = Some e →
  players (parsePlayerText rawText) = [].
Proof.
  unfold parsePlayerText. intros Herr.
  destruct (parse_lines_spec (split_nl (trim rawText)) [])
    as [[_ (ps & Heq & _)]|(pre & line & post & e' & _ & _ & _ & Heq)];
    rewrite Heq in *; [done|done].
Qed.

Lemma item_or_idem (item : option jsstring) :
  item_or (Some (item_or item [])) [] = item_or item [].
Proof.
  destruct item as [s|]; [|done]. simpl.
  destruct (falsy s) eqn:E; [done|]. simpl. by rewrite E.
Qed.

Lemma item_or_Some (s : jsstring) : item_or (Some s) [] = s.
Proof. simpl. by destruct s. Qed.

Lemma toggle_card_fields (st st' : AppState) (r t : Z) :
  toggle_card r t st = Some st' →
  st_rawText st' = st_rawText st ∧ st_dataSource st' = st_dataSource st ∧
  st_storage st' = st_storage st ∧ st_numTeams st' = st_numTeams st ∧
  st_error st' = st_error st.
Proof.
  unfold toggle_card. destruct (draftData st); [|done]. simpl.
  destruct (_ ≫= card_rank); by intros [= <-].
Qed.

Lemma run_effects_same (st st' : AppState) :
  st_rawText st' = st_rawText st → st_dataSource st' = st_dataSource st →
  run_effects (Some st) st' = st'.
Proof.
  intros Htext Hsrc. unfold run_effects, changed, parseError.
  rewrite Htext, Hsrc. rewrite !bool_decide_ne_same by done.
  simpl. destruct st'. simpl in *. by subst.
Qed.

Section app_theorems.
Variables sleeper yahoo espn : jsstring.

Local Abbreviation astep := (app_step sleeper yahoo espn).
Local Abbreviation arun := (app_run sleeper yahoo espn).
Local Abbreviation areach := (reachable sleeper yahoo espn).

(** X14.  The error shown always is the one of the current text: in every
    state the component can reach, the [error] state equals the error of
    parsing [rawText] (null when the text parses). *)
Theorem error_tracks_text (st : AppState) :
  areach st → st_error st = error (parsePlayerText (st_rawText st)).
Proof. by intros (? & _)%reachable_inv. Qed.

(** X15.  Source, text and storage agree in every reachable state: under
    [Custom] the stored item is the current text, and under a preset the
    text is that preset's list. *)
Theorem source_text_storage (st : AppState) :
  areach st →
  (st_dataSource st = Custom → st_storage st = Some (st_rawText st)) ∧
  (st_dataSource st = Sleeper → st_rawText st = sleeper) ∧
  (st_dataSource st = Yahoo → st_rawText st = yahoo) ∧
  (st_dataSource st = ESPN → st_rawText st = espn).
Proof.
  intros (_ & Hcust & Hpre & _)%reachable_inv. split; [done|].
  split_and!; intros Hsrc; rewrite Hpre by (by rewrite Hsrc);
    by rewrite Hsrc.
Qed.

(** X16.  Only ranks of listed players are picked: in every reachable
    state each rank of the picked set is the rank of a player parsed from
    the current text; when the text does not parse, nothing is picked. *)
Theorem picked_are_parsed_ranks (st : AppState) :
  areach st →
  (∀ r, r ∈ st_pickedPlayers st →
        ∃ p, p ∈ players (parsePlayerText (st_rawText st)) ∧ rank p = r) ∧
  (error (parsePlayerText (st_rawText st)) ≠ None → st_pickedPlayers st = ∅).
Proof.
  intros (_ & _ & _ & Hpick)%reachable_inv. split; [done|].
  intros Herr. destruct (error _) as [e|] eqn:He; [|done].
  apply parse_failed_no_players in He.
  apply set_eq. intros r. split; [|by intros []%elem_of_empty].
  intros (p & Hp & _)%Hpick. unfold parsedPlayers in Hp.
  rewrite He in Hp. by apply elem_of_nil in Hp.
Qed.

(** X17.  A step that changes the text empties the picked set; a step that
    leaves the text as it was, and is not a click or key press on a card,
    leaves the picked set as it was. *)
Theorem text_change_resets_picks (st st' : AppState) (ev : event) :
  astep st ev = Some st' →
  (st_rawText st' ≠ st_rawText st → st_pickedPlayers st' = ∅) ∧
  (st_rawText st' = st_rawText st → is_card_event ev = false →
   st_pickedPlayers st' = st_pickedPlayers st).
Proof.
  unfold app_step. intros Hstep.
  destruct (handle sleeper yahoo espn ev st) as [st1|] eqn:Hh; [|done].
  simpl in Hstep. injection Hstep as <-.
  unfold run_effects, changed. simpl. split.
  - intros Hne. by rewrite bool_decide_ne_diff by done.
  - intros Heq Hcard. rewrite bool_decide_ne_same by done.
    destruct ev; simpl in Hh; try done; by injection Hh as <-.
Qed.

Lemma saved_step (st st' : AppState) (ev : event) :
  astep st ev = Some st' → is_edit ev = false →
  item_or (st_storage st') [] = item_or (st_storage st) [].
Proof.
  unfold app_step. intros Hstep Hedit.
  destruct ev as [source|newText|n|r t|key r t]; simpl in Hstep; [|done|..].
  - injection Hstep as <-. unfold run_effects, handleDataSourceChange.
    simpl. destruct (_ || _); simpl; [|done].
    case_bool_decide as Hsrc; [|done]. subst source. simpl.
    apply item_or_idem.
  - injection Hstep as <-.
    by rewrite run_effects_same.
  - destruct (toggle_card r t st) as [st1|] eqn:Htog; [|done].
    injection Hstep as <-.
    destruct (toggle_card_fields _ _ _ _ Htog) as (Ht & Hs & Hst & _).
    by rewrite run_effects_same, Hst.
  - case_bool_decide.
    + destruct (toggle_card r t st) as [st1|] eqn:Htog; [|done].
      injection Hstep as <-.
      destruct (toggle_card_fields _ _ _ _ Htog) as (Ht & Hs & Hst & _).
      by rewrite run_effects_same, Hst.
    + injection Hstep as <-. by rewrite run_effects_same.
Qed.

Lemma saved_run (evs : list event) :
  ∀ st st', arun st evs = Some st' →
            Forall (λ ev, is_edit ev = false) evs →
            item_or (st_storage st') [] = item_or (st_storage st) [].
Proof.
  induction evs as [|ev evs IH]; intros st st' Hrun Hevs.
  - by injection Hrun as <-.
  - apply Forall_cons in Hevs as [Hev Hevs]. cbn [app_run] in Hrun.
    destruct (astep st ev) as [st1|] eqn:Hstep; [|done]. simpl in Hrun.
    by rewrite (IH _ _ Hrun Hevs), (saved_step _ _ _ Hstep Hev).
Qed.

(** X18.  The custom text survives everything but an edit: from a
    reachable state under [Custom], after any run of source changes, team
    count changes and card clicks, selecting [Custom] again brings back
    the text that was there. *)
Theorem custom_text_restored (st st1 st2 : AppState) (evs : list event) :
  areach st → st_dataSource st = Custom →
  Forall (λ ev, is_edit ev = false) evs →
  arun st evs = Some st1 →
  astep st1 (DataSourceChange Custom) = Some st2 →
  st_rawText st2 = st_rawText st ∧ st_dataSource st2 = Custom.
Proof.
  intros (_ & Hcust & _)%reachable_inv Hsrc Hevs Hrun Hstep.
  pose proof (saved_run _ _ _ Hrun Hevs) as Hsaved.
  rewrite (Hcust Hsrc), item_or_Some in Hsaved.
  unfold app_step in Hstep. simpl in Hstep. injection Hstep as <-.
  by simpl.
Qed.
End app_theorems.

(** X19.  The grid is replaced by the placeholder exactly when there is
    nothing to lay out: for a team count below 2^32, [draftData] is a
    board, and [DraftBoard] draws no row if and only if the text gave no
    player (it is empty or does not parse) or the team count is zero or
    less.  The memo throws, and nothing is drawn, exactly when the text
    gave a player and the team count is 2^32 or more. *)
Theorem placeholder_iff (st : AppState) :
  (st_numTeams st < 2 ^ 32 →
   ∃ board,
     draftData st = Some board ∧
     (DraftBoard board (st_numTeams st) (st_pickedPlayers st) = []
      ↔ players (parsePlayerText (st_rawText st)) = [] ∨ st_numTeams st ≤ 0))
  ∧ (draftData st = None
     ↔ players (parsePlayerText (st_rawText st)) ≠ []
       ∧ 2 ^ 32 ≤ st_numTeams st).
Proof.
  unfold draftData. fold (parsedPlayers st).
  destruct (parsedPlayers st) as [|p ps] eqn:Hps.
  { split.
    - intros _. exists []. simpl. split; [done|]. split; [by left|done].
    - simpl. split; [done|]. by intros [? _]. }
  replace (0 <? length (p :: ps))%nat with true by done.
  destruct (generateSnakeDraft_cases (p :: ps) (st_numTeams st))
    as [[[?|HT] ->]|[(_ & HT & ->)|(_ & HT & ->)]]; [done| | |].
  - split; [|split; [done|lia]].
    intros _. exists []. split; [done|]. split; [by right|done].
  - split; [|split; [done|lia]].
    intros _. exists (snake_board (p :: ps) (st_numTeams st)). split; [done|].
    rewrite DraftBoard_snake_board by lia.
    pose proof (ceil_div_bounds (st_numTeams st) ltac:(lia)
                  (Z.of_nat (length (p :: ps))) ltac:(lia)) as Hb.
    split.
    + intros Hnil%(f_equal length).
      rewrite length_fmap, length_seqZ in Hnil. simpl in *. nia.
    + intros [?|?]; [done|lia].
  - split; [lia|]. split; [done|]. by intros _.
Qed.

(** ** Examples of the App properties *)

Lemma demo_state_reachable :
  reachable (js "1 A RB") (js "2 B WR") (js "3 C TE") demo_state.
Proof. apply reachable_mount. Qed.

Lemma error_tracks_text_witness :
  ∃ st,
    app_step (js "1 A RB") (js "2 B WR") (js "3 C TE") demo_state
      (RawTextChange (js "oops")) = Some st ∧
    st_error st = error (parsePlayerText (st_rawText st)).
Proof.
  eexists. split; [reflexivity|].
  apply (error_tracks_text (js "1 A RB") (js "2 B WR") (js "3 C TE")).
  apply (reachable_step _ _ _ demo_state (RawTextChange (js "oops")));
    [apply reachable_mount|reflexivity].
Defined.

Lemma source_text_storage_witness :
  ∃ st,
    app_step (js "1 A RB") (js "2 B WR") (js "3 C TE") demo_state
      (DataSourceChange Yahoo) = Some st ∧
    (st_dataSource st = Custom → st_storage st = Some (st_rawText st)) ∧
    (st_dataSource st = Sleeper → st_rawText st = js "1 A RB") ∧
    (st_dataSource st = Yahoo → st_rawText st = js "2 B WR") ∧
    (st_dataSource st = ESPN → st_rawText st = js "3 C TE").
Proof.
  eexists. split; [reflexivity|].
  apply (source_text_storage (js "1 A RB") (js "2 B WR") (js "3 C TE")).
  apply (reachable_step _ _ _ demo_state (DataSourceChange Yahoo));
    [apply reachable_mount|reflexivity].
Defined.

Lemma picked_are_parsed_ranks_witness :
  ∃ st,
    app_step (js "1 A RB") (js "2 B WR") (js "3 C TE") demo_state
      (CardClick 0 0) = Some st ∧
    (∀ r, r ∈ st_pickedPlayers st →
          ∃ p, p ∈ players (parsePlayerText (st_rawText st)) ∧ rank p = r) ∧
    (error (parsePlayerText (st_rawText st)) ≠ None →
     st_pickedPlayers st = ∅).
Proof.
  eexists. split; [reflexivity|].
  apply (picked_are_parsed_ranks (js "1 A RB") (js "2 B WR") (js "3 C TE")).
  apply (reachable_step _ _ _ demo_state (CardClick 0 0));
    [apply reachable_mount|reflexivity].
Defined.

Lemma text_change_resets_picks_witness :
  ∃ st,
    app_step (js "1 A RB") (js "2 B WR") (js "3 C TE") demo_state
      (DataSourceChange ESPN) = Some st ∧
    (st_rawText st ≠ st_rawText demo_state → st_pickedPlayers st = ∅) ∧
    (st_rawText st = st_rawText demo_state →
     is_card_event (DataSourceChange ESPN) = false →
     st_pickedPlayers st = st_pickedPlayers demo_state).
Proof.
  eexists. split; [reflexivity|].
  apply (text_change_resets_picks (js "1 A RB") (js "2 B WR") (js "3 C TE")).
  reflexivity.
Defined.

Lemma custom_text_restored_witness :
  ∃ st1 st2,
    app_run (js "1 A RB") (js "2 B WR") (js "3 C TE") demo_state
      [DataSourceChange Yahoo; SetNumTeams 4; CardClick 0 0] = Some st1 ∧
    app_step (js "1 A RB") (js "2 B WR") (js "3 C TE") st1
      (DataSourceChange Custom) = Some st2 ∧
    st_rawText st2 = st_rawText demo_state ∧ st_dataSource st2 = Custom.
Proof.
  eexists _, _. split; [reflexivity|]. split; [reflexivity|].
  eapply (custom_text_restored (js "1 A RB") (js "2 B WR") (js "3 C TE")
            demo_state _ _
            [DataSourceChange Yahoo; SetNumTeams 4; CardClick 0 0]).
  - apply reachable_mount.
  - reflexivity.
  - by repeat constructor.
  - reflexivity.
  - reflexivity.
Defined.

Lemma generateSnakeDraft_returns_witness :
  ∃ board,
    generateSnakeDraft seven_players 3 = Some board ∧
    (board = [] ↔ seven_players = [] ∨ 3 ≤ 0) ∧
    (board ≠ [] → Z.of_nat (length board) = 3).
Proof. apply (proj1 (generateSnakeDraft_returns seven_players 3)). lia. Defined.

Lemma placeholder_iff_witness :
  ∃ board,
    draftData demo_state = Some board ∧
    (DraftBoard board (st_numTeams demo_state) (st_pickedPlayers demo_state)
     = []
     ↔ players (parsePlayerText (st_rawText demo_state)) = []
       ∨ st_numTeams demo_state ≤ 0).
Proof. apply (proj1 (placeholder_iff demo_state)). vm_compute. reflexivity. Defined.
